(** * mechjeb_smoke: the probe-and-classify engine of tools/mechjeb_smoke.py

    A shallow embedding of the smoke test for the kRPC MechJeb service and
    the verification of its probe, classification and reporting contracts.

    The remote surface (attribute reads, method calls, member enumeration)
    is an interface of the development: a class [Surface] whose operations
    transform an abstract remote state and either return a value or raise.
    A failure is an instance of Python's [Exception], which is what every
    handler of the program names; it is represented by its text [str(ex)].
    The ledger [results] is the one list the program creates in [main] and
    passes to every probe, so it lives in the threaded state, next to the
    remote state and the lines printed on the standard output.

    Outside the model: [repr], [str] and [conn.close()] are taken to
    return; the traceback that [main] writes to the error stream is not
    recorded; strings are byte strings and [lower] acts on ASCII letters. *)

From Stdlib Require Import String Ascii List ZArith Lia Bool DecimalString.
From stdpp Require Import base tactics list strings gmap.

Local Open Scope string_scope.
Local Open Scope list_scope.
#[local] Set Warnings "-register-all".

(** ** Python builtins the program relies on *)

Module Py.

(** Values that cross the RPC boundary. A float is kept as its literal. *)
Inductive Value : Type :=
| VNone
| VBool (b : bool)
| VInt (n : Z)
| VFloat (lit : string)
| VStr (s : string)
| VList (xs : list Value)
| VTuple (xs : list Value)
| VObj (cls : string) (id : N).

(** An instance of [Exception]; [str] is [str(ex)]. *)
Record Exn : Type := Exception { str : string }.

(** Outcome of a call: a returned value or a raised exception. *)
Inductive Res (A : Type) : Type :=
| Ret (a : A)
| Raise (e : Exn).
Arguments Ret {A} a.
Arguments Raise {A} e.

(** [v is None] *)
Definition is_None (v : Value) : bool :=
  match v with VNone => true | _ => false end.

(** [v is False] *)
Definition is_False (v : Value) : bool :=
  match v with VBool false => true | _ => false end.

(** [s.startswith(p)] *)
Definition startswith (s p : string) : bool := String.prefix p s.

(** [sub in s] on strings *)
Fixpoint contains (sub s : string) : bool :=
  String.prefix sub s ||
  match s with
  | EmptyString => false
  | String _ s' => contains sub s'
  end.

Definition lower_ascii (c : ascii) : ascii :=
  let n := nat_of_ascii c in
  if (65 <=? n)%nat && (n <=? 90)%nat then ascii_of_nat (n + 32) else c.

(** [s.lower()], on the ASCII letters *)
Fixpoint lower (s : string) : string :=
  match s with
  | EmptyString => EmptyString
  | String c s' => String (lower_ascii c) (lower s')
  end.

(** [any(p(x) for x in xs)] *)
Definition any {A} (p : A -> bool) (xs : list A) : bool := existsb p xs.

(** [f"{n}"] for a non-negative count *)
Definition fmt_nat (n : nat) : string := NilEmpty.string_of_uint (Nat.to_uint n).

Definition type_name (v : Value) : string :=
  match v with
  | VNone => "NoneType"
  | VBool _ => "bool"
  | VInt _ => "int"
  | VFloat _ => "float"
  | VStr _ => "str"
  | VList _ => "list"
  | VTuple _ => "tuple"
  | VObj cls _ => cls
  end.

(** [len(v)] *)
Definition len (v : Value) : Res nat :=
  match v with
  | VStr s => Ret (String.length s)
  | VList xs | VTuple xs => Ret (length xs)
  | _ => Raise (Exception ("object of type '" +:+ type_name v +:+ "' has no len()"))
  end.

Fixpoint chars (s : string) : list Value :=
  match s with
  | EmptyString => []
  | String c s' => VStr (String c EmptyString) :: chars s'
  end.

(** [list(v)] *)
Definition to_list (v : Value) : Res (list Value) :=
  match v with
  | VStr s => Ret (chars s)
  | VList xs | VTuple xs => Ret xs
  | _ => Raise (Exception ("'" +:+ type_name v +:+ "' object is not iterable"))
  end.

(** [sub] occurs in [s]: the meaning of Python's [sub in s]. *)
Definition Substring (sub s : string) : Prop :=
  exists pre post, s = pre +:+ sub +:+ post.

End Py.
Export Py.

(** ** State and exceptions: the monad the program runs in *)

(** A computation over a state [S] that returns or raises; the state
    reached is kept in both cases, as Python keeps side effects made before
    an exception. *)
Definition SE (S A : Type) : Type := S -> Res A * S.

Definition ret {S A} (a : A) : SE S A := fun s => (Ret a, s).

Definition raise {S A} (e : Exn) : SE S A := fun s => (Raise e, s).

Definition bind {S A B} (m : SE S A) (k : A -> SE S B) : SE S B :=
  fun s =>
    match m s with
    | (Ret a, s') => k a s'
    | (Raise e, s') => (Raise e, s')
    end.

(** [try: body except Exception as ex: handler(ex)] *)
Definition try_except {S A} (body : SE S A) (handler : Exn -> SE S A) : SE S A :=
  fun s =>
    match body s with
    | (Ret a, s') => (Ret a, s')
    | (Raise e, s') => handler e s'
    end.

(** A pure builtin that may raise. *)
Definition of_res {S A} (r : Res A) : SE S A := fun s => (r, s).

Declare Scope se_scope.
Delimit Scope se_scope with se.
Notation "x <- m ;; k" := (bind m (fun x => k))
  (at level 100, m at next level, right associativity) : se_scope.
Notation "m ;; k" := (bind m (fun _ => k))
  (at level 100, right associativity) : se_scope.
Local Open Scope se_scope.

(** [for x in xs: body(x)] *)
Fixpoint for_each {S A} (xs : list A) (body : A -> SE S unit) : SE S unit :=
  match xs with
  | [] => ret tt
  | x :: xs' => body x ;; for_each xs' body
  end.

(** ** Data model *)

(** [@dataclass CheckResult] *)
Record CheckResult : Type := mkCheckResult {
  name : string;
  status : string;
  detail : string
}.

Definition CRASH_MARKERS : list string :=
  [ "NullReferenceException";
    "TargetInvocationException";
    "MissingFieldException";
    "MissingMethodException";
    "TypeLoadException" ].

Definition EXPECTED_OPERATION_MARKERS : list string :=
  [ "target";
    "inclination";
    "intercept";
    "cannot";
    "not allowed";
    "no transfer";
    "no maneuver";
    "no maneuver parameters" ].

(** The closed enumeration of statuses of the data model. *)
Definition STATUSES : list string :=
  [ "PASS"; "FAIL"; "FAIL_CRASH"; "EXPECTED_FAIL"; "SKIP" ].

Definition valid_result (r : CheckResult) : Prop := In (status r) STATUSES.

(** [any(marker in msg for marker in CRASH_MARKERS)] *)
Definition has_crash_marker (msg : string) : bool :=
  any (fun marker => contains marker msg) CRASH_MARKERS.

(** [is_expected_operation_error] *)
Definition is_expected_operation_error (message : string) : bool :=
  let lower := lower message in
  any (fun marker => contains marker lower) EXPECTED_OPERATION_MARKERS.

(** ** The remote surface *)

(** Command-line arguments as [argparse] delivers them. *)
Record Args : Type := mkArgs {
  arg_name : string;
  arg_address : string;
  arg_rpc_port : Z;
  arg_stream_port : Z;
  arg_make_nodes : bool
}.

(** What the program consumes from the kRPC client and from Python:
    [getattr(o, n)], [o.m(args)], [dir(o)], [repr(v)], [krpc.connect] and
    [conn.close()]. Remote accesses act on the remote state [World]. *)
Class Surface : Type := {
  World : Type;
  py_getattr : Value -> string -> SE World Value;
  py_call : Value -> string -> list Value -> SE World Value;
  py_dir : Value -> SE World (list string);
  repr : Value -> string;
  krpc_connect : string -> string -> Z -> Z -> SE World Value;
  conn_close : Value -> World -> World
}.

(** ** The program *)

Section Engine.
Context `{Sf : Surface}.

(** The remote state, the ledger [results] and what was printed. *)
Record State : Type := mkState {
  world : World;
  results : list CheckResult;
  stdout : list string
}.

Definition M : Type -> Type := SE State.

(** A remote access: it acts on the remote state only. *)
Definition remote {A} (r : SE World A) : M A :=
  fun s =>
    let (a, w) := r (world s) in
    (a, mkState w (results s) (stdout s)).

(** [results.append(r)] *)
Definition append (r : CheckResult) : M unit :=
  fun s => (Ret tt, mkState (world s) (results s ++ [r]) (stdout s)).

(** [print(line)] *)
Definition print (line : string) : M unit :=
  fun s => (Ret tt, mkState (world s) (results s) (stdout s ++ [line])).

(** [conn.close()] *)
Definition close (conn : Value) : M unit :=
  fun s => (Ret tt, mkState (conn_close conn (world s)) (results s) (stdout s)).

Definition get_results : M (list CheckResult) :=
  fun s => (Ret (results s), s).

(** The state after a remote access reached [w]. *)
Definition reached (s : State) (w : World) : State :=
  mkState w (results s) (stdout s).

(** The state after a remote access reached [w] and [r] was appended. *)
Definition recorded (s : State) (w : World) (r : CheckResult) : State :=
  mkState w (results s ++ [r]) (stdout s).

Definition safe_read (name : string) (fn : SE World Value) : M Value :=
  try_except
    (value <- remote fn ;;
     append (mkCheckResult name "PASS" (repr value)) ;;
     ret value)
    (fun ex =>
       let msg := str ex in
       let status := if has_crash_marker msg then "FAIL_CRASH" else "FAIL" in
       append (mkCheckResult name status msg) ;;
       ret VNone).

(** The loop of [safe_attr]: the first exposed name is read, and the
    statement after the loop records the skip. *)
Fixpoint safe_attr_names (owner_name : string) (obj : Value) (attr : string)
    (exposed : gset string) (names : list string) : M Value :=
  match names with
  | [] =>
      append (mkCheckResult (owner_name +:+ "." +:+ attr) "SKIP"
                "attribute not exposed by this client/service build") ;;
      ret VNone
  | name :: rest =>
      if bool_decide (name ∈ exposed)
      then safe_read (owner_name +:+ "." +:+ name) (py_getattr obj name)
      else safe_attr_names owner_name obj attr exposed rest
  end.

Definition safe_attr (owner_name : string) (obj : Value) (attr : string)
    (aliases : option (list string)) : M Value :=
  let names := [attr] ++ default [] aliases in
  r <- try_except
         (ds <- remote (py_dir obj) ;;
          ret (inr (list_to_set ds : gset string)))
         (fun ex =>
            append (mkCheckResult (owner_name +:+ "." +:+ attr) "FAIL"
                      ("cannot inspect attributes: " +:+ str ex)) ;;
            ret (inl VNone)) ;;
  match r with
  | inl v => ret v
  | inr exposed => safe_attr_names owner_name obj attr exposed names
  end.

(** [lambda: conn.krpc.get_status().version] *)
Definition read_version (conn : Value) : SE World Value :=
  krpc <- py_getattr conn "krpc" ;;
  st <- py_call krpc "get_status" [] ;;
  py_getattr st "version".

Definition probe_basic_service (conn : Value) : M Value :=
  safe_read "krpc.version" (read_version conn) ;;
  mj <- safe_read "service.mech_jeb" (py_getattr conn "mech_jeb") ;;
  if is_None mj then ret VNone else
  ready <- safe_read "mech_jeb.api_ready" (py_getattr mj "api_ready") ;;
  (if is_False ready
   then append (mkCheckResult "mech_jeb.api_ready" "FAIL" "API is not ready")
   else ret tt) ;;
  ret mj.

Definition modules : list (string * list string) :=
  [ ("airplane_autopilot", ["enabled"]);
    ("ascent_autopilot", ["enabled"; "ascent_path_index"; "autostage"]);
    ("docking_autopilot", ["enabled"; "speed_limit"]);
    ("landing_autopilot", ["enabled"; "touchdown_speed"]);
    ("rendezvous_autopilot", ["enabled"; "desired_distance"; "max_phasing_orbits"]);
    ("maneuver_planner", []);
    ("smart_ass", ["autopilot_mode"; "force_roll"; "force_pitch"; "force_yaw"]);
    ("smart_rcs", ["auto_disable_smart_rcs"]);
    ("translatron", ["trans_spd"]);
    ("antenna_controller", ["auto_deploy"]);
    ("node_executor", ["enabled"; "autowarp"; "lead_time"; "tolerance"]);
    ("rcs_controller", ["rcs_for_rotation"; "rcs_throttle"]);
    ("staging_controller", ["enabled"; "autostage_limit"]);
    ("solar_panel_controller", ["auto_deploy"]);
    ("target_controller", ["normal_target_exists"; "position_target_exists"; "can_align"]);
    ("thrust_controller", ["limit_dynamic_pressure"; "limit_acceleration"; "limit_throttle"]);
    ("warp_controller", ["enabled"; "warp_paused"; "activate_sas_on_warp"; "use_quick_warp"]) ].

(** One iteration of the loop of [probe_modules]. *)
Definition probe_module (mj : Value) (entry : string * list string) : M unit :=
  let '(module_name, props) := entry in
  module <- safe_read ("module." +:+ module_name) (py_getattr mj module_name) ;;
  if is_None module then ret tt else
  for_each props (fun prop => safe_attr module_name module prop None ;; ret tt).

(** [probe_modules], over any catalog. *)
Definition probe_modules_of (catalog : list (string * list string)) (mj : Value) : M unit :=
  for_each catalog (probe_module mj).

Definition probe_modules (mj : Value) : M unit := probe_modules_of modules mj.

Definition checks : list (string * string * list Value) :=
  [ ("desired_orbit_altitude", "try_set_desired_orbit_altitude", [VFloat "100.0"]);
    ("limit_ao_a", "try_set_limit_ao_a", [VBool true]);
    ("limit_ao_a", "try_get_limit_ao_a", []);
    ("max_ao_a", "try_set_max_ao_a", [VFloat "5.0"]);
    ("max_ao_a", "try_get_max_ao_a", []);
    ("corrective_steering", "try_set_corrective_steering", [VBool true]);
    ("corrective_steering", "try_get_corrective_steering", []);
    ("corrective_steering_gain", "try_set_corrective_steering_gain", [VFloat "0.6"]);
    ("corrective_steering_gain", "try_get_corrective_steering_gain", []);
    ("force_roll", "try_set_force_roll", [VBool false]);
    ("skip_circularization", "try_set_skip_circularization", [VBool false]);
    ("skip_circularization", "try_get_skip_circularization", []) ].

(** One iteration of the loop of [probe_ascent_compat]. *)
Definition probe_check (ascent : Value) (check : string * string * list Value) : M unit :=
  let '(prop_name, method_name, args) := check in
  safe_read ("ascent.is_property_available(" +:+ prop_name +:+ ")")
    (py_call ascent "is_property_available" [VStr prop_name]) ;;
  safe_read ("ascent.get_unavailable_reason(" +:+ prop_name +:+ ")")
    (py_call ascent "get_unavailable_reason" [VStr prop_name]) ;;
  safe_read ("ascent." +:+ method_name) (py_call ascent method_name args) ;;
  ret tt.

Definition probe_ascent_compat (mj : Value) : M unit :=
  ascent <- safe_read "module.ascent_autopilot" (py_getattr mj "ascent_autopilot") ;;
  if is_None ascent then ret tt else
  for_each checks (probe_check ascent).

(** The loop of [clear_nodes]: [node.remove(); removed += 1]. *)
Fixpoint remove_nodes (nodes : list Value) (removed : nat) : M nat :=
  match nodes with
  | [] => ret removed
  | node :: rest =>
      remote (py_call node "remove" []) ;;
      remove_nodes rest (removed + 1)
  end.

Definition clear_nodes (conn : Value) : M unit :=
  vessel <- remote (space_center <- py_getattr conn "space_center" ;;
                    py_getattr space_center "active_vessel") ;;
  nodes <- remote (control <- py_getattr vessel "control" ;;
                   py_getattr control "nodes") ;;
  nodes <- of_res (to_list nodes) ;;
  removed <- remove_nodes nodes 0 ;;
  append (mkCheckResult "space_center.clear_nodes" "PASS" ("removed=" +:+ fmt_nat removed)).

Definition operations : list string :=
  [ "operation_apoapsis";
    "operation_circularize";
    "operation_course_correction";
    "operation_ellipticize";
    "operation_inclination";
    "operation_interplanetary_transfer";
    "operation_kill_rel_vel";
    "operation_lambert";
    "operation_lan";
    "operation_longitude";
    "operation_moon_return";
    "operation_periapsis";
    "operation_plane";
    "operation_resonant_orbit";
    "operation_semi_major";
    "operation_transfer" ].

(** The [except] clause of the node-generation call site. *)
Definition make_nodes_handler (op_name : string) (ex : Exn) : M unit :=
  let msg := str ex in
  if has_crash_marker msg then
    append (mkCheckResult ("op." +:+ op_name +:+ ".make_nodes") "FAIL_CRASH" msg)
  else if is_expected_operation_error msg then
    append (mkCheckResult ("op." +:+ op_name +:+ ".make_nodes") "EXPECTED_FAIL" msg)
  else
    append (mkCheckResult ("op." +:+ op_name +:+ ".make_nodes") "FAIL" msg).

(** The [try] statement of the node-generation call site. *)
Definition probe_make_nodes (conn : Value) (op_name : string) (op : Value) : M unit :=
  try_except
    (nodes <- remote (py_call op "make_nodes" []) ;;
     count <- of_res (len nodes) ;;
     append (mkCheckResult ("op." +:+ op_name +:+ ".make_nodes") "PASS"
               ("nodes=" +:+ fmt_nat count)) ;;
     clear_nodes conn)
    (make_nodes_handler op_name).

(** One iteration of the loop of [probe_operations]. *)
Definition probe_operation (conn planner : Value) (make_nodes : bool)
    (op_name : string) : M unit :=
  op <- safe_read ("op." +:+ op_name) (py_getattr planner op_name) ;;
  if is_None op then ret tt else
  safe_read ("op." +:+ op_name +:+ ".error_message") (py_getattr op "error_message") ;;
  ts <- safe_attr ("op." +:+ op_name) op "time_selector" None ;;
  (if negb (is_None ts) then
     safe_attr ("op." +:+ op_name +:+ ".time_selector") ts "time_reference"
       (Some ["current_time_reference"]) ;;
     safe_attr ("op." +:+ op_name +:+ ".time_selector") ts
       "allowed_time_references" None ;;
     ret tt
   else ret tt) ;;
  if negb make_nodes then ret tt else
  probe_make_nodes conn op_name op.

Definition probe_operations (conn mj : Value) (make_nodes : bool) : M unit :=
  planner <- safe_read "maneuver_planner" (py_getattr mj "maneuver_planner") ;;
  if is_None planner then ret tt else
  for_each operations (probe_operation conn planner make_nodes).

(** One printed line of the itemized report. *)
Definition report_line (r : CheckResult) : string :=
  "[" +:+ status r +:+ "] " +:+ name r +:+ ": " +:+ detail r.

Definition summarize (results : list CheckResult) : M Z :=
  let fail := List.filter (fun r => startswith (status r) "FAIL") results in
  let expected := List.filter (fun r => String.eqb (status r) "EXPECTED_FAIL") results in
  let skipped := List.filter (fun r => String.eqb (status r) "SKIP") results in
  for_each results (fun r => print (report_line r)) ;;
  print "" ;;
  print ("Summary: total=" +:+ fmt_nat (length results)
         +:+ " fail=" +:+ fmt_nat (length fail)
         +:+ " expected_fail=" +:+ fmt_nat (length expected)
         +:+ " skipped=" +:+ fmt_nat (length skipped)) ;;
  ret (match fail with [] => 0 | _ :: _ => 1 end)%Z.

(** The body of the second [try] of [main]. *)
Definition probing (conn : Value) (make_nodes : bool) : M unit :=
  mj <- probe_basic_service conn ;;
  if negb (is_None mj) then
    probe_modules mj ;;
    probe_ascent_compat mj ;;
    probe_operations conn mj make_nodes
  else ret tt.

(** The second [try] statement of [main] around a body, its [except] and
    [finally] clauses, and the [return summarize(results)] after it. The
    traceback goes to the error stream, which is not part of [stdout]. *)
Definition run_probes (conn : Value) (body : M unit) : M Z :=
  r <- try_except
         (body ;; ret None)
         (fun _ =>
            print "[FAIL] unhandled exception during smoke test" ;;
            ret (Some 3%Z)) ;;
  close conn ;;
  match r with
  | Some code => ret code
  | None => rs <- get_results ;; summarize rs
  end.

Definition main_body (args : Args) : M Z :=
  r <- try_except
         (conn <- remote (krpc_connect (arg_name args) (arg_address args)
                            (arg_rpc_port args) (arg_stream_port args)) ;;
          ret (inr conn))
         (fun ex =>
            print ("[FAIL] connect: " +:+ str ex) ;;
            ret (inl 2%Z)) ;;
  match r with
  | inl code => ret code
  | inr conn => run_probes conn (probing conn (arg_make_nodes args))
  end.

(** [main]: the ledger is created empty and nothing is printed yet. *)
Definition main (args : Args) (w : World) : Res Z * State :=
  main_body args (mkState w [] []).

(** The ledger of [s] is an initial segment of the ledger of [s'], and
    nothing was printed in between. *)
Definition extends (s s' : State) : Prop :=
  results s `prefix_of` results s' /\ stdout s' = stdout s.

(** A computation that only appends to the ledger and prints nothing,
    whether it returns or raises. *)
Definition append_only {A} (m : M A) : Prop :=
  forall s, extends s (snd (m s)).

(** A computation that never raises. *)
Definition contained {A} (m : M A) : Prop :=
  forall s, exists a, fst (m s) = Ret a.

(** A computation that keeps every status of the ledger in the closed
    enumeration. *)
Definition keeps_valid {A} (m : M A) : Prop :=
  forall s, Forall valid_result (results s) ->
            Forall valid_result (results (snd (m s))).

End Engine.

(** ** A scripted remote surface

    A concrete surface for running the program: the remote state is a
    script saying which member accesses raise and which values they return,
    the members [dir] omits, and the log of accesses made so far. *)

Module Demo.

Record Script : Type := mkScript {
  raising : list (string * string);
  returning : list (string * Value);
  hidden : list string;
  members : list string;
  log : list string
}.

Fixpoint lookup {A} (key : string) (table : list (string * A)) : option A :=
  match table with
  | [] => None
  | (k, v) :: rest => if String.eqb k key then Some v else lookup key rest
  end.

Definition logged (entry : string) (w : Script) : Script :=
  mkScript (raising w) (returning w) (hidden w) (members w) (log w ++ [entry]).

(** An access to member [n]: raise if the script says so, return the
    scripted value if there is one, and a fresh object handle otherwise. *)
Definition access (n : string) : SE Script Value :=
  fun w =>
    let w' := logged n w in
    match lookup n (raising w) with
    | Some msg => (Raise (Exception msg), w')
    | None =>
        match lookup n (returning w) with
        | Some v => (Ret v, w')
        | None => (Ret (VObj n 0), w')
        end
    end.

Definition enumerate : SE Script (list string) :=
  fun w =>
    let w' := logged "dir" w in
    match lookup "dir" (raising w) with
    | Some msg => (Raise (Exception msg), w')
    | None =>
        (Ret (List.filter (fun n => negb (existsb (String.eqb n) (hidden w))) (members w)), w')
    end.

Definition show (v : Value) : string :=
  match v with
  | VNone => "None"
  | VBool true => "True"
  | VBool false => "False"
  | VInt _ => "<int>"
  | VFloat lit => lit
  | VStr s => "'" +:+ s +:+ "'"
  | VList _ => "[...]"
  | VTuple _ => "(...)"
  | VObj cls _ => "<" +:+ cls +:+ ">"
  end.

#[global] Instance scripted : Surface := {
  World := Script;
  py_getattr _ n := access n;
  py_call _ m _ := access m;
  py_dir _ := enumerate;
  repr := show;
  krpc_connect _ _ _ _ := access "connect";
  conn_close _ := logged "close"
}.

Definition conn : Value := VObj "Client" 0.

Definition args (make_nodes : bool) : Args :=
  mkArgs "mechjeb-smoke" "127.0.0.1" 50000 50001 make_nodes.

(** Every member is present and readable. *)
Definition healthy : Script := mkScript [] [] [] ["time_selector"; "time_reference"] [].

Definition start (w : Script) : State := mkState w [] [].

(** [api_ready] reads as False. *)
Definition api_not_ready : Script :=
  mkScript [] [("api_ready", VBool false)] [] [] [].

(** [conn.mech_jeb] reads as None. *)
Definition no_service : Script :=
  mkScript [] [("mech_jeb", VNone)] [] [] [].

(** Node generation is refused for a domain reason. *)
Definition no_window : Script :=
  mkScript [("make_nodes", "No transfer window currently available")] [] [] [] [].

(** Node generation crashes with a message that also holds expected words. *)
Definition crashing : Script :=
  mkScript [("make_nodes", "NullReferenceException: cannot find target")] [] [] [] [].

(** Node generation succeeds with one node; removing it fails. *)
Definition cleanup_fails : Script :=
  mkScript [("remove", "Connection reset by peer")]
    [("make_nodes", VList [VObj "Node" 1]); ("nodes", VList [VObj "Node" 1])] [] [] [].

(** The vessel has two nodes and both can be removed. *)
Definition two_nodes : Script :=
  mkScript [] [("nodes", VList [VObj "Node" 1; VObj "Node" 2])] [] [] [].

(** Node generation returns None instead of a list. *)
Definition unsized_nodes : Script :=
  mkScript [] [("make_nodes", VNone)] [] [] [].

(** A ledger with one result of each status. *)
Definition mixed_ledger : list CheckResult :=
  [ mkCheckResult "krpc.version" "PASS" "'0.5.4'";
    mkCheckResult "module.smart_ass" "FAIL" "No such module";
    mkCheckResult "op.operation_lan.make_nodes" "FAIL_CRASH" "NullReferenceException";
    mkCheckResult "op.operation_transfer.make_nodes" "EXPECTED_FAIL"
      "No transfer window currently available";
    mkCheckResult "smart_ass.force_roll" "SKIP"
      "attribute not exposed by this client/service build" ].

(** The connection is refused. *)
Definition unreachable : Script :=
  mkScript [("connect", "Connection refused")] [] [] [] [].

(** Only the alias of [time_reference] is exposed. *)
Definition alias_only : Script :=
  mkScript [] [] [] ["allowed_time_references"; "current_time_reference"] [].

(** Member enumeration fails. *)
Definition opaque_object : Script :=
  mkScript [("dir", "object handle is stale")] [] [] [] [].

(** The module [smart_ass] cannot be fetched. *)
Definition no_smart_ass : Script :=
  mkScript [("smart_ass", "No such module")] [] [] ["force_roll"] [].

Definition op : Value := VObj "operation_transfer" 0.

(** A ledger with a refused operation and a missing member, no failure. *)
Definition soft_ledger : list CheckResult :=
  [ mkCheckResult "service.mech_jeb" "PASS" "<mech_jeb>";
    mkCheckResult "op.operation_transfer.make_nodes" "EXPECTED_FAIL"
      "No transfer window currently available";
    mkCheckResult "smart_ass.force_roll" "SKIP"
      "attribute not exposed by this client/service build" ].

(** A probing phase with a defect outside any probe: one probe, then an
    exception that no probe boundary catches. *)
Definition defective_walk : M unit :=
  safe_read "krpc.version" (read_version conn) ;;
  raise (Exception "list index out of range").

End Demo.

(** ** Vocabulary of the statements *)

(** The results of a ledger recorded under one name. *)
Definition named (n : string) (rs : list CheckResult) : list CheckResult :=
  List.filter (fun r => String.eqb (name r) n) rs.

(** Every result of the ledger has its line in the output. *)
Definition report_printed `{Sf : Surface} (s : State) : Prop :=
  forall r, In r (results s) -> In (report_line r) (stdout s).

(** The number of results whose status is [st]. *)
Definition count_status (st : string) (rs : list CheckResult) : nat :=
  length (List.filter (fun r => String.eqb (status r) st) rs).

(** The number of results the reporter counts as failures. *)
Definition count_fail (rs : list CheckResult) : nat :=
  length (List.filter (fun r => startswith (status r) "FAIL") rs).

(** The summary line the reporter prints for a ledger. *)
Definition summary_line (rs : list CheckResult) : string :=
  "Summary: total=" +:+ fmt_nat (length rs)
  +:+ " fail=" +:+ fmt_nat (count_fail rs)
  +:+ " expected_fail=" +:+ fmt_nat (count_status "EXPECTED_FAIL" rs)
  +:+ " skipped=" +:+ fmt_nat (count_status "SKIP" rs).

(** A computation that only appends results satisfying [P]. *)
Definition appends `{Sf : Surface} {A} (P : CheckResult -> Prop) (m : M A) : Prop :=
  forall s, exists new, results (snd (m s)) = results s ++ new /\ Forall P new.

(** A computation that keeps a property of its state, whether it returns
    or raises. *)
Definition preserves {S A} (Q : S -> Prop) (m : SE S A) : Prop :=
  forall s, Q s -> Q (snd (m s)).

(** One access to the remote surface, as the program makes it. *)
Inductive Access : Type :=
| Get (member : string)
| Call (method : string)
| Dir
| Connect
| Close.

(** A surface that behaves as [Sf] and keeps the list of the accesses
    made, in order, beside the remote state of [Sf]. An access is listed
    whether it returns or raises. *)
Definition traced (Sf : Surface) : Surface := {|
  World := (@World Sf * list Access)%type;
  py_getattr o n := fun wt =>
    let '(r, w) := @py_getattr Sf o n (fst wt) in (r, (w, snd wt ++ [Get n]));
  py_call o m args := fun wt =>
    let '(r, w) := @py_call Sf o m args (fst wt) in (r, (w, snd wt ++ [Call m]));
  py_dir o := fun wt =>
    let '(r, w) := @py_dir Sf o (fst wt) in (r, (w, snd wt ++ [Dir]));
  repr := @repr Sf;
  krpc_connect n a p q := fun wt =>
    let '(r, w) := @krpc_connect Sf n a p q (fst wt) in (r, (w, snd wt ++ [Connect]));
  conn_close c := fun wt => (@conn_close Sf c (fst wt), snd wt ++ [Close])
|}.

(** A state of the traced surface without its list of accesses. *)
Definition erase {Sf : Surface} (s : @State (traced Sf)) : @State Sf :=
  mkState (fst (world s)) (results s) (stdout s).

(** [mt] computes what [m] computes, on states that [proj] relates. *)
Definition mirrors {St S A} (proj : St -> S) (mt : SE St A) (m : SE S A) : Prop :=
  forall s, (fst (mt s), proj (snd (mt s))) = m (proj s).

(** The accesses listed in [t] are those of [t0] followed by accesses that
    satisfy [ok]. *)
Definition only (ok : Access -> Prop) (t0 t : list Access) : Prop :=
  exists t1, t = t0 ++ t1 /\ Forall ok t1.

(** [conn.space_center.active_vessel.control.nodes], the read that
    [clear_nodes] makes before it removes anything. *)
Definition read_nodes `{Sf : Surface} (conn : Value) : SE World Value :=
  space_center <- py_getattr conn "space_center" ;;
  vessel <- py_getattr space_center "active_vessel" ;;
  control <- py_getattr vessel "control" ;;
  py_getattr control "nodes".

(** Where the soft statuses of a run come from: an EXPECTED_FAIL result is
    the node-generation result of an operation of the catalog, recorded
    with node generation on; a SKIP result carries the detail of the
    Capability Prober. *)
Definition soft_origin (make_nodes : bool) (r : CheckResult) : Prop :=
  (status r = "EXPECTED_FAIL" ->
     make_nodes = true /\
     exists op_name, In op_name operations /\
                     name r = "op." +:+ op_name +:+ ".make_nodes") /\
  (status r = "SKIP" ->
     detail r = "attribute not exposed by this client/service build").

(** A result of the module/property walk over [catalog]: the fetch of an
    entry, or the probe of one of its members. *)
Definition module_result (catalog : list (string * list string)) (r : CheckResult) : Prop :=
  exists module_name props,
    In (module_name, props) catalog /\
    (name r = "module." +:+ module_name \/
     exists prop, In prop props /\ name r = module_name +:+ "." +:+ prop).

(** The names under which the probe of one operation records. *)
Definition operation_names (op_name : string) : list string :=
  [ "op." +:+ op_name;
    "op." +:+ op_name +:+ ".error_message";
    "op." +:+ op_name +:+ ".time_selector";
    "op." +:+ op_name +:+ ".time_selector.time_reference";
    "op." +:+ op_name +:+ ".time_selector.current_time_reference";
    "op." +:+ op_name +:+ ".time_selector.allowed_time_references";
    "op." +:+ op_name +:+ ".make_nodes";
    "space_center.clear_nodes" ].

(** The methods the probes call when node generation is off. *)
Definition probe_calls : list string :=
  ["get_status"; "is_property_available"; "get_unavailable_reason"]
  ++ map (fun check : string * string * list Value => snd (fst check)) checks.

(** The methods the probes may call. *)
Definition calls_made (make_nodes : bool) : list string :=
  probe_calls ++ (if make_nodes then ["make_nodes"; "remove"] else []).

(** An access the probing phase may make: any attribute read, any member
    enumeration, and a call of one of [calls_made]. *)
Definition probe_access (make_nodes : bool) (a : Access) : Prop :=
  match a with
  | Get _ | Dir => True
  | Call m => In m (calls_made make_nodes)
  | Connect | Close => False
  end.

(** ** Strings: what the substring tests mean *)

Section StringFacts.

Lemma prefix_spec (p s : string) :
  String.prefix p s = true <-> exists post, s = p +:+ post.
Proof.
  revert p. induction s as [|c s IH]; intros [|a p]; simpl.
  - split; [exists ""; reflexivity | reflexivity].
  - split; [discriminate | intros [post H]; discriminate].
  - split; [exists (String c s); reflexivity | reflexivity].
  - destruct (Ascii.ascii_dec a c) as [->|Hne].
    + rewrite IH. split; intros [post H]; exists post.
      * now rewrite H.
      * now injection H.
    + split; [discriminate | intros [post H]; injection H; congruence].
Qed.

Lemma contains_spec (sub s : string) :
  contains sub s = true <-> Substring sub s.
Proof.
  split.
  - induction s as [|c s IH]; cbn [contains]; rewrite orb_true_iff.
    + intros [H|H]; [|discriminate].
      apply prefix_spec in H as [post ->]. now exists "", post.
    + intros [H|H].
      * apply prefix_spec in H as [post ->]. now exists "", post.
      * destruct (IH H) as (pre & post & ->). now exists (String c pre), post.
  - intros (pre & post & ->). induction pre as [|c pre IH].
    + change ("" +:+ sub +:+ post) with (sub +:+ post).
      destruct (sub +:+ post) eqn:E; cbn [contains]; rewrite orb_true_iff; left;
        apply prefix_spec; exists post; now rewrite E.
    + change (String c pre +:+ sub +:+ post) with (String c (pre +:+ sub +:+ post)).
      cbn [contains]. rewrite IH. apply orb_true_r.
Qed.

Lemma any_contains_spec (markers : list string) (s : string) :
  any (fun marker => contains marker s) markers = true <->
  exists marker, In marker markers /\ Substring marker s.
Proof.
  unfold any. rewrite existsb_exists.
  split; intros (m & Hin & H); exists m; split; auto; now apply contains_spec.
Qed.

Lemma has_crash_marker_spec (msg : string) :
  has_crash_marker msg = true <->
  exists marker, In marker CRASH_MARKERS /\ Substring marker msg.
Proof. apply any_contains_spec. Qed.

Lemma no_crash_marker_spec (msg : string) :
  has_crash_marker msg = false <->
  forall marker, In marker CRASH_MARKERS -> ~ Substring marker msg.
Proof.
  rewrite <- not_true_iff_false, has_crash_marker_spec. split.
  - intros H m Hin Hsub. apply H. now exists m.
  - intros H (m & Hin & Hsub). now apply (H m).
Qed.

Lemma is_expected_operation_error_spec (message : string) :
  is_expected_operation_error message = true <->
  exists marker, In marker EXPECTED_OPERATION_MARKERS /\ Substring marker (lower message).
Proof. apply any_contains_spec. Qed.

End StringFacts.

(** ** The Safe Invoker and the two call-site classifiers *)

Section Invoker.
Context `{Sf : Surface}.

Lemma safe_read_returns (name : string) (fn : SE World Value) (s : State)
    (value : Value) (w : World) :
  fn (world s) = (Ret value, w) ->
  safe_read name fn s = (Ret value, recorded s w (mkCheckResult name "PASS" (repr value))).
Proof.
  intros H. unfold safe_read, try_except, bind, remote. now rewrite H.
Qed.

Lemma safe_read_raises (name : string) (fn : SE World Value) (s : State)
    (ex : Exn) (w : World) :
  fn (world s) = (Raise ex, w) ->
  safe_read name fn s =
    (Ret VNone,
     recorded s w (mkCheckResult name
                     (if has_crash_marker (str ex) then "FAIL_CRASH" else "FAIL")
                     (str ex))).
Proof.
  intros H. unfold safe_read, try_except, bind, remote. now rewrite H.
Qed.

Lemma make_nodes_raises (conn : Value) (op_name : string) (op : Value) (s : State)
    (ex : Exn) (w : World) :
  py_call op "make_nodes" [] (world s) = (Raise ex, w) ->
  probe_make_nodes conn op_name op s = make_nodes_handler op_name ex (reached s w).
Proof.
  intros H. unfold probe_make_nodes, try_except, bind, remote. now rewrite H.
Qed.

(** C1: a failure message that contains a crash marker is recorded as
    FAIL_CRASH, whatever else it contains, at every Safe Invoker call and at
    the node-generation call site. *)
Theorem crash_marker_wins (ex : Exn) (marker : string) :
  In marker CRASH_MARKERS ->
  Substring marker (str ex) ->
  (forall name fn s w,
      fn (world s) = (Raise ex, w) ->
      safe_read name fn s =
        (Ret VNone, recorded s w (mkCheckResult name "FAIL_CRASH" (str ex)))) /\
  (forall conn op_name op s w,
      py_call op "make_nodes" [] (world s) = (Raise ex, w) ->
      probe_make_nodes conn op_name op s =
        (Ret tt, recorded s w (mkCheckResult ("op." +:+ op_name +:+ ".make_nodes")
                                 "FAIL_CRASH" (str ex)))).
Proof.
  intros Hin Hsub.
  assert (Hc : has_crash_marker (str ex) = true)
    by (apply has_crash_marker_spec; eauto).
  split.
  - intros name fn s w H. rewrite (safe_read_raises _ _ _ _ _ H). now rewrite Hc.
  - intros conn op_name op s w H. rewrite (make_nodes_raises _ _ _ _ _ _ H).
    unfold make_nodes_handler. now rewrite Hc.
Qed.

(** C3: a failure message with no crash marker and an expected-operation
    marker (matched on the lowered message) is recorded as EXPECTED_FAIL at
    the node-generation call site and as FAIL at a Safe Invoker call; the
    Safe Invoker records only PASS, FAIL_CRASH or FAIL. *)
Theorem expected_marker_by_call_site (ex : Exn) (marker : string) :
  (forall crash, In crash CRASH_MARKERS -> ~ Substring crash (str ex)) ->
  In marker EXPECTED_OPERATION_MARKERS ->
  Substring marker (lower (str ex)) ->
  (forall conn op_name op s w,
      py_call op "make_nodes" [] (world s) = (Raise ex, w) ->
      probe_make_nodes conn op_name op s =
        (Ret tt, recorded s w (mkCheckResult ("op." +:+ op_name +:+ ".make_nodes")
                                 "EXPECTED_FAIL" (str ex)))) /\
  (forall name fn s w,
      fn (world s) = (Raise ex, w) ->
      safe_read name fn s =
        (Ret VNone, recorded s w (mkCheckResult name "FAIL" (str ex)))) /\
  (forall name fn s,
      exists r, results (snd (safe_read name fn s)) = results s ++ [r] /\
                In (status r) ["PASS"; "FAIL_CRASH"; "FAIL"]).
Proof.
  intros Hno Hin Hsub.
  apply no_crash_marker_spec in Hno.
  assert (He : is_expected_operation_error (str ex) = true)
    by (apply is_expected_operation_error_spec; eauto).
  split; [|split].
  - intros conn op_name op s w H. rewrite (make_nodes_raises _ _ _ _ _ _ H).
    unfold make_nodes_handler. now rewrite Hno, He.
  - intros name fn s w H. rewrite (safe_read_raises _ _ _ _ _ H). now rewrite Hno.
  - intros name fn s. destruct (fn (world s)) as [[v|e] w] eqn:H.
    + rewrite (safe_read_returns _ _ _ _ _ H). eexists; split; [reflexivity|].
      simpl; auto.
    + rewrite (safe_read_raises _ _ _ _ _ H). eexists; split; [reflexivity|].
      simpl. destruct (has_crash_marker (str e)); auto.
Qed.

(** C4: one call of the Safe Invoker appends exactly one result and never
    raises: PASS with the value's representation and the value returned
    when the operation returns, FAIL_CRASH or FAIL with the message and
    None returned when it raises. *)
Theorem safe_read_contract (name : string) (fn : SE World Value) (s : State) :
  (exists value r, safe_read name fn s =
                     (Ret value, mkState (snd (fn (world s))) (results s ++ [r]) (stdout s))) /\
  (forall value w,
      fn (world s) = (Ret value, w) ->
      safe_read name fn s =
        (Ret value, recorded s w (mkCheckResult name "PASS" (repr value)))) /\
  (forall ex w,
      fn (world s) = (Raise ex, w) ->
      safe_read name fn s =
        (Ret VNone,
         recorded s w (mkCheckResult name
                         (if has_crash_marker (str ex) then "FAIL_CRASH" else "FAIL")
                         (str ex)))).
Proof.
  split; [|split].
  - destruct (fn (world s)) as [[v|e] w] eqn:H.
    + rewrite (safe_read_returns _ _ _ _ _ H). now eexists _, _.
    + rewrite (safe_read_raises _ _ _ _ _ H). now eexists _, _.
  - intros value w H. now apply safe_read_returns.
  - intros ex w H. now apply safe_read_raises.
Qed.

End Invoker.

(** ** The Reporter *)

Section Reporter.
Context `{Sf : Surface}.

Lemma print_each (f : CheckResult -> string) (rs : list CheckResult) (s : State) :
  for_each rs (fun r => print (f r)) s =
    (Ret tt, mkState (world s) (results s) (stdout s ++ map f rs)).
Proof.
  revert s. induction rs as [|r rs IH]; intros [w l out]; simpl.
  - unfold ret. now rewrite app_nil_r.
  - unfold bind, print at 1. simpl. rewrite IH. simpl. now rewrite <- app_assoc.
Qed.

Lemma summarize_returns (rs : list CheckResult) (s : State) :
  fst (summarize rs s) =
    Ret (match List.filter (fun r => startswith (status r) "FAIL") rs with
         | [] => 0
         | _ :: _ => 1
         end)%Z.
Proof.
  unfold summarize, bind. rewrite print_each. reflexivity.
Qed.

Lemma summarize_prints (rs : list CheckResult) (s : State) :
  exists summary,
    stdout (snd (summarize rs s)) = stdout s ++ map report_line rs ++ [""; summary].
Proof.
  unfold summarize, bind. rewrite print_each. simpl.
  eexists. rewrite <- !app_assoc. reflexivity.
Qed.

Lemma fail_prefix_valid (r : CheckResult) :
  valid_result r ->
  startswith (status r) "FAIL" = true <-> status r = "FAIL" \/ status r = "FAIL_CRASH".
Proof.
  unfold valid_result, STATUSES. simpl.
  intros [H|[H|[H|[H|[H|[]]]]]]; rewrite <- H; vm_compute;
    split; intros; auto; intuition discriminate.
Qed.

Lemma fail_prefix_soft (st : string) :
  st = "EXPECTED_FAIL" \/ st = "SKIP" -> startswith st "FAIL" = false.
Proof. intros [->| ->]; reflexivity. Qed.

Lemma filter_nil_iff {A} (p : A -> bool) (l : list A) :
  List.filter p l = [] <-> forall x, In x l -> p x = false.
Proof.
  induction l as [|a l IH]; simpl.
  - split; [intros _ x [] | reflexivity].
  - destruct (p a) eqn:E.
    + split; [discriminate | intros H; specialize (H a (or_introl eq_refl)); congruence].
    + rewrite IH. split.
      * intros H x [<-|Hin]; auto.
      * intros H x Hin. apply H. now right.
Qed.

(** The failures the reporter counts, on a ledger of valid statuses:
    either there is none, or a FAIL or FAIL_CRASH result is in the ledger. *)
Lemma failures_counted (rs : list CheckResult) :
  Forall valid_result rs ->
  (List.filter (fun r => startswith (status r) "FAIL") rs = [] /\
   forall r, In r rs -> status r <> "FAIL" /\ status r <> "FAIL_CRASH") \/
  (exists r0 fail,
      List.filter (fun r => startswith (status r) "FAIL") rs = r0 :: fail /\
      In r0 rs /\ (status r0 = "FAIL" \/ status r0 = "FAIL_CRASH")).
Proof.
  intros Hvalid. rewrite List.Forall_forall in Hvalid.
  destruct (List.filter (fun r => startswith (status r) "FAIL") rs) as [|r0 fail] eqn:E.
  - left. split; [reflexivity|].
    pose proof (proj1 (filter_nil_iff _ _) E) as Hnone.
    intros r Hin. specialize (Hnone r Hin). simpl in Hnone.
    split; intros Hst; rewrite Hst in Hnone; discriminate.
  - right. exists r0, fail. split; [reflexivity|].
    assert (Hin0 : In r0 (List.filter (fun r => startswith (status r) "FAIL") rs))
      by (rewrite E; now left).
    apply filter_In in Hin0 as [Hin0 Hp0].
    split; [exact Hin0|]. now apply (fail_prefix_valid r0 (Hvalid r0 Hin0)).
Qed.

(** C2: on a ledger whose statuses are those of the data model, the
    reporter returns 0 exactly when no result is FAIL or FAIL_CRASH and 1
    exactly when one is; an EXPECTED_FAIL or SKIP result does not change
    the exit code. *)
Theorem summarize_exit_code (rs : list CheckResult) (s : State) :
  Forall valid_result rs ->
  (fst (summarize rs s) = Ret 0%Z <->
     forall r, In r rs -> status r <> "FAIL" /\ status r <> "FAIL_CRASH") /\
  (fst (summarize rs s) = Ret 1%Z <->
     exists r, In r rs /\ (status r = "FAIL" \/ status r = "FAIL_CRASH")) /\
  (forall pre r post,
      rs = pre ++ r :: post ->
      status r = "EXPECTED_FAIL" \/ status r = "SKIP" ->
      fst (summarize rs s) = fst (summarize (pre ++ post) s)).
Proof.
  intros Hvalid. rewrite !summarize_returns.
  assert (Hsoft : forall pre r post,
             rs = pre ++ r :: post ->
             status r = "EXPECTED_FAIL" \/ status r = "SKIP" ->
             List.filter (fun r => startswith (status r) "FAIL") rs =
             List.filter (fun r => startswith (status r) "FAIL") (pre ++ post)).
  { intros pre r post -> Hs. rewrite !List.filter_app. simpl.
    now rewrite (fail_prefix_soft _ Hs). }
  destruct (failures_counted rs Hvalid) as [[E Hno]|(r0 & fail & E & Hin0 & Hst0)].
  - rewrite E. split; [|split].
    + split; auto.
    + split; [discriminate|]. intros (r & Hin & Hst).
      destruct (Hno r Hin). destruct Hst; contradiction.
    + intros pre r post Hrs Hs. rewrite summarize_returns.
      now rewrite <- (Hsoft pre r post Hrs Hs), E.
  - rewrite E. split; [|split].
    + split; [discriminate|]. intros Hno. destruct (Hno r0 Hin0).
      destruct Hst0; contradiction.
    + split; eauto.
    + intros pre r post Hrs Hs. rewrite summarize_returns.
      now rewrite <- (Hsoft pre r post Hrs Hs), E.
Qed.

End Reporter.

(** ** The Capability Prober *)

Section Prober.
Context `{Sf : Surface}.

Lemma safe_read_appends_one (name : string) (fn : SE World Value) (s : State) :
  exists value st d,
    safe_read name fn s =
      (Ret value, recorded s (snd (fn (world s))) (mkCheckResult name st d)).
Proof.
  destruct (fn (world s)) as [[v|e] w] eqn:H.
  - rewrite (safe_read_returns _ _ _ _ _ H). now eexists _, _, _.
  - rewrite (safe_read_raises _ _ _ _ _ H). now eexists _, _, _.
Qed.

Lemma safe_attr_inspect_fails (owner_name : string) (obj : Value) (attr : string)
    (aliases : option (list string)) (s : State) (ex : Exn) (w : World) :
  py_dir obj (world s) = (Raise ex, w) ->
  safe_attr owner_name obj attr aliases s =
    (Ret VNone,
     recorded s w (mkCheckResult (owner_name +:+ "." +:+ attr) "FAIL"
                     ("cannot inspect attributes: " +:+ str ex))).
Proof.
  intros H. unfold safe_attr, try_except, bind, remote. now rewrite H.
Qed.

Lemma safe_attr_inspected (owner_name : string) (obj : Value) (attr : string)
    (aliases : option (list string)) (s : State) (ds : list string) (w : World) :
  py_dir obj (world s) = (Ret ds, w) ->
  safe_attr owner_name obj attr aliases s =
    safe_attr_names owner_name obj attr (list_to_set ds)
      (attr :: default [] aliases) (reached s w).
Proof.
  intros H. unfold safe_attr, try_except, bind, remote. now rewrite H.
Qed.

Lemma exposed_iff (n : string) (ds : list string) :
  n ∈ (list_to_set ds : gset string) <-> In n ds.
Proof. now rewrite elem_of_list_to_set, list_elem_of_In. Qed.

Lemma safe_attr_names_first (owner_name : string) (obj : Value) (attr : string)
    (ds : list string) (pre : list string) (matched : string) (post : list string) :
  (forall n, In n pre -> ~ In n ds) ->
  In matched ds ->
  safe_attr_names owner_name obj attr (list_to_set ds) (pre ++ matched :: post) =
    safe_read (owner_name +:+ "." +:+ matched) (py_getattr obj matched).
Proof.
  intros Hpre Hm. induction pre as [|n pre IH]; simpl.
  - rewrite bool_decide_eq_true_2; [reflexivity | now apply exposed_iff].
  - rewrite bool_decide_eq_false_2.
    + apply IH. intros n' Hn'. apply Hpre. now right.
    + rewrite exposed_iff. apply Hpre. now left.
Qed.

Lemma safe_attr_names_none (owner_name : string) (obj : Value) (attr : string)
    (ds : list string) (names : list string) (s : State) :
  (forall n, In n names -> ~ In n ds) ->
  safe_attr_names owner_name obj attr (list_to_set ds) names s =
    (Ret VNone,
     recorded s (world s)
       (mkCheckResult (owner_name +:+ "." +:+ attr) "SKIP"
          "attribute not exposed by this client/service build")).
Proof.
  intros Hnone. induction names as [|n names IH]; simpl.
  - reflexivity.
  - rewrite bool_decide_eq_false_2.
    + apply IH. intros n' Hn'. apply Hnone. now right.
    + rewrite exposed_iff. apply Hnone. now left.
Qed.

(** The names either split at a first exposed one or none is exposed. *)
Lemma first_exposed_or_none (ds names : list string) :
  (exists pre matched post,
      names = pre ++ matched :: post /\
      (forall n, In n pre -> ~ In n ds) /\ In matched ds) \/
  (forall n, In n names -> ~ In n ds).
Proof.
  induction names as [|n names IH].
  - right. intros n [].
  - destruct (in_dec string_dec n ds) as [Hin|Hout].
    + left. exists [], n, names. repeat split; auto; intros n' [].
    + destruct IH as [(pre & m & post & -> & Hpre & Hm)|Hnone].
      * left. exists (n :: pre), m, post. repeat split; auto.
        intros n' [<-|Hn']; auto.
      * right. intros n' [<-|Hn']; auto.
Qed.

(** One call of the Capability Prober appends exactly one result and
    never raises. *)
Lemma safe_attr_appends_one (owner_name : string) (obj : Value) (attr : string)
    (aliases : option (list string)) (s : State) :
  exists value w r,
    safe_attr owner_name obj attr aliases s = (Ret value, recorded s w r).
Proof.
  destruct (py_dir obj (world s)) as [[ds|ex] w] eqn:H.
  - rewrite (safe_attr_inspected _ _ _ _ _ _ _ H).
    destruct (first_exposed_or_none ds (attr :: default [] aliases))
      as [(pre & m & post & -> & Hpre & Hm)|Hnone].
    + rewrite safe_attr_names_first by assumption.
      destruct (safe_read_appends_one (owner_name +:+ "." +:+ m) (py_getattr obj m)
                  (reached s w)) as (v & st & d & ->).
      now eexists _, _, _.
    + rewrite safe_attr_names_none by assumption. now eexists _, _, _.
  - rewrite (safe_attr_inspect_fails _ _ _ _ _ _ _ H). now eexists _, _, _.
Qed.

(** C8: the Capability Prober reads the first name of canonical-then-aliases
    that the object exposes and records it under that name; when no listed
    name is exposed it appends one SKIP under the canonical name and returns
    None; when enumerating the members raises it appends one FAIL under the
    canonical name with a "cannot inspect attributes" detail. *)
Theorem safe_attr_resolution (owner_name : string) (obj : Value) (attr : string)
    (aliases : option (list string)) (s : State) :
  (forall ds w pre matched post,
      py_dir obj (world s) = (Ret ds, w) ->
      [attr] ++ default [] aliases = pre ++ matched :: post ->
      (forall n, In n pre -> ~ In n ds) ->
      In matched ds ->
      safe_attr owner_name obj attr aliases s =
        safe_read (owner_name +:+ "." +:+ matched) (py_getattr obj matched) (reached s w) /\
      exists value st d,
        safe_attr owner_name obj attr aliases s =
          (Ret value,
           recorded s (snd (py_getattr obj matched w))
             (mkCheckResult (owner_name +:+ "." +:+ matched) st d))) /\
  (forall ds w,
      py_dir obj (world s) = (Ret ds, w) ->
      (forall n, In n ([attr] ++ default [] aliases) -> ~ In n ds) ->
      safe_attr owner_name obj attr aliases s =
        (Ret VNone,
         recorded s w (mkCheckResult (owner_name +:+ "." +:+ attr) "SKIP"
                         "attribute not exposed by this client/service build"))) /\
  (forall ex w,
      py_dir obj (world s) = (Raise ex, w) ->
      safe_attr owner_name obj attr aliases s =
        (Ret VNone,
         recorded s w (mkCheckResult (owner_name +:+ "." +:+ attr) "FAIL"
                         ("cannot inspect attributes: " +:+ str ex)))).
Proof.
  split; [|split].
  - intros ds w pre matched post Hdir Hnames Hpre Hm.
    assert (E : safe_attr owner_name obj attr aliases s =
                safe_read (owner_name +:+ "." +:+ matched) (py_getattr obj matched)
                  (reached s w)).
    { rewrite (safe_attr_inspected _ _ _ _ _ _ _ Hdir).
      change (attr :: default [] aliases) with ([attr] ++ default [] aliases).
      rewrite Hnames. now rewrite safe_attr_names_first. }
    split; [exact E|]. rewrite E.
    apply (safe_read_appends_one _ (py_getattr obj matched) (reached s w)).
  - intros ds w Hdir Hnone.
    rewrite (safe_attr_inspected _ _ _ _ _ _ _ Hdir).
    now rewrite safe_attr_names_none.
  - intros ex w Hdir. now apply safe_attr_inspect_fails.
Qed.

End Prober.

(** ** The ledger only grows, and probing is contained *)

Section Ledger.
Context `{Sf : Surface}.

Lemma extends_refl (s : State) : extends s s.
Proof. split; reflexivity. Qed.

Lemma extends_trans (s1 s2 s3 : State) :
  extends s1 s2 -> extends s2 s3 -> extends s1 s3.
Proof. intros [H1 E1] [H2 E2]. split; [etrans; eassumption | congruence]. Qed.

Lemma ao_ret {A} (a : A) : append_only (ret a).
Proof. intros s. apply extends_refl. Qed.

Lemma ao_of_res {A} (r : Res A) : append_only (of_res r).
Proof. intros s. apply extends_refl. Qed.

Lemma ao_remote {A} (r : SE World A) : append_only (remote r).
Proof.
  intros s. unfold remote. destruct (r (world s)). split; reflexivity.
Qed.

Lemma ao_append (r : CheckResult) : append_only (append r).
Proof. intros s. split; [now apply prefix_app_r | reflexivity]. Qed.

Lemma ao_bind {A B} (m : M A) (k : A -> M B) :
  append_only m -> (forall a, append_only (k a)) -> append_only (bind m k).
Proof.
  intros Hm Hk s. unfold bind. specialize (Hm s).
  destruct (m s) as [[a|e] s']; simpl in *; [|assumption].
  eapply extends_trans; [eassumption | apply Hk].
Qed.

Lemma ao_try_except {A} (body : M A) (handler : Exn -> M A) :
  append_only body -> (forall e, append_only (handler e)) ->
  append_only (try_except body handler).
Proof.
  intros Hb Hh s. unfold try_except. specialize (Hb s).
  destruct (body s) as [[a|e] s']; simpl in *; [assumption|].
  eapply extends_trans; [eassumption | apply Hh].
Qed.

Lemma ao_for_each {A} (xs : list A) (body : A -> M unit) :
  (forall x, append_only (body x)) -> append_only (for_each xs body).
Proof.
  intros Hb. induction xs as [|x xs IH]; simpl.
  - apply ao_ret.
  - apply ao_bind; auto.
Qed.

Lemma ct_ret {A} (a : A) : contained (ret a : M A).
Proof. intros s. now exists a. Qed.

Lemma ct_append (r : CheckResult) : contained (append r).
Proof. intros s. now exists tt. Qed.

Lemma ct_bind {A B} (m : M A) (k : A -> M B) :
  contained m -> (forall a, contained (k a)) -> contained (bind m k).
Proof.
  intros Hm Hk s. unfold bind. destruct (Hm s) as [a Ha].
  destruct (m s) as [[a'|e] s']; simpl in Ha; [|discriminate]. apply Hk.
Qed.

Lemma ct_try_except {A} (body : M A) (handler : Exn -> M A) :
  (forall e, contained (handler e)) -> contained (try_except body handler).
Proof.
  intros Hh s. unfold try_except.
  destruct (body s) as [[a|e] s']; [now exists a | apply Hh].
Qed.

Lemma ct_for_each {A} (xs : list A) (body : A -> M unit) :
  (forall x, contained (body x)) -> contained (for_each xs body).
Proof.
  intros Hb. induction xs as [|x xs IH]; simpl.
  - apply ct_ret.
  - apply ct_bind; auto.
Qed.

Lemma kv_ret {A} (a : A) : keeps_valid (ret a).
Proof. intros s H. exact H. Qed.

Lemma kv_of_res {A} (r : Res A) : keeps_valid (of_res r).
Proof. intros s H. exact H. Qed.

Lemma kv_remote {A} (r : SE World A) : keeps_valid (remote r).
Proof. intros s H. unfold remote. now destruct (r (world s)). Qed.

Lemma kv_append (r : CheckResult) : valid_result r -> keeps_valid (append r).
Proof.
  intros Hr s H. simpl. apply Forall_app. split; [exact H | now constructor].
Qed.

Lemma kv_bind {A B} (m : M A) (k : A -> M B) :
  keeps_valid m -> (forall a, keeps_valid (k a)) -> keeps_valid (bind m k).
Proof.
  intros Hm Hk s H. unfold bind. specialize (Hm s H).
  destruct (m s) as [[a|e] s']; simpl in *; [now apply Hk | assumption].
Qed.

Lemma kv_try_except {A} (body : M A) (handler : Exn -> M A) :
  keeps_valid body -> (forall e, keeps_valid (handler e)) ->
  keeps_valid (try_except body handler).
Proof.
  intros Hb Hh s H. unfold try_except. specialize (Hb s H).
  destruct (body s) as [[a|e] s']; simpl in *; [assumption | now apply Hh].
Qed.

Lemma kv_for_each {A} (xs : list A) (body : A -> M unit) :
  (forall x, keeps_valid (body x)) -> keeps_valid (for_each xs body).
Proof.
  intros Hb. induction xs as [|x xs IH]; simpl.
  - apply kv_ret.
  - apply kv_bind; auto.
Qed.

Create HintDb ledger.

(** Decompose a goal along the structure of the program, closing the
    parts already established. *)
Ltac walk :=
  repeat first
    [ solve [auto with ledger nocore]
    | apply ao_ret | apply ao_of_res | apply ao_remote | apply ao_append
    | apply ct_ret | apply ct_append
    | apply kv_ret | apply kv_of_res | apply kv_remote
    | apply kv_append; unfold valid_result; simpl; solve [auto 10]
    | apply ao_bind; [|intros ?] | apply ct_bind; [|intros ?]
    | apply kv_bind; [|intros ?]
    | apply ao_try_except; [|intros ?] | apply ct_try_except; intros ?
    | apply kv_try_except; [|intros ?]
    | apply ao_for_each; intros ? | apply ct_for_each; intros ?
    | apply kv_for_each; intros ?
    | match goal with
      | |- context [if ?b then _ else _] => destruct b
      | |- context [let '(_, _) := ?p in _] => destruct p
      end ].

Lemma safe_read_append_only (name : string) (fn : SE World Value) :
  append_only (safe_read name fn).
Proof. unfold safe_read. walk. Qed.

Lemma safe_read_contained (name : string) (fn : SE World Value) :
  contained (safe_read name fn).
Proof. unfold safe_read. walk. Qed.

Lemma safe_read_keeps_valid (name : string) (fn : SE World Value) :
  keeps_valid (safe_read name fn).
Proof. unfold safe_read. walk. Qed.

Lemma safe_attr_append_only (owner_name : string) (obj : Value) (attr : string)
    (aliases : option (list string)) :
  append_only (safe_attr owner_name obj attr aliases).
Proof.
  intros s. destruct (safe_attr_appends_one owner_name obj attr aliases s)
    as (v & w & r & ->).
  split; [now apply prefix_app_r | reflexivity].
Qed.

Lemma safe_attr_contained (owner_name : string) (obj : Value) (attr : string)
    (aliases : option (list string)) :
  contained (safe_attr owner_name obj attr aliases).
Proof.
  intros s. destruct (safe_attr_appends_one owner_name obj attr aliases s)
    as (v & w & r & ->). now exists v.
Qed.

Lemma safe_attr_names_keeps_valid (owner_name : string) (obj : Value) (attr : string)
    (exposed : gset string) (names : list string) :
  keeps_valid (safe_attr_names owner_name obj attr exposed names).
Proof.
  induction names as [|n names IH]; simpl.
  - walk.
  - destruct (bool_decide (n ∈ exposed)); [apply safe_read_keeps_valid | exact IH].
Qed.

Lemma safe_attr_keeps_valid (owner_name : string) (obj : Value) (attr : string)
    (aliases : option (list string)) :
  keeps_valid (safe_attr owner_name obj attr aliases).
Proof.
  unfold safe_attr. apply kv_bind.
  - walk.
  - intros [v|exposed]; [apply kv_ret | apply safe_attr_names_keeps_valid].
Qed.

Lemma remove_nodes_append_only (nodes : list Value) (removed : nat) :
  append_only (remove_nodes nodes removed).
Proof.
  revert removed. induction nodes as [|node rest IH]; intros removed; simpl.
  - apply ao_ret.
  - apply ao_bind; [apply ao_remote | intros _; apply IH].
Qed.

Lemma remove_nodes_keeps_valid (nodes : list Value) (removed : nat) :
  keeps_valid (remove_nodes nodes removed).
Proof.
  revert removed. induction nodes as [|node rest IH]; intros removed; simpl.
  - apply kv_ret.
  - apply kv_bind; [apply kv_remote | intros _; apply IH].
Qed.

#[local] Hint Resolve safe_read_append_only safe_attr_append_only
  remove_nodes_append_only safe_read_contained safe_attr_contained
  safe_read_keeps_valid safe_attr_keeps_valid remove_nodes_keeps_valid : ledger.

Lemma clear_nodes_append_only (conn : Value) : append_only (clear_nodes conn).
Proof. unfold clear_nodes. walk. Qed.

Lemma clear_nodes_keeps_valid (conn : Value) : keeps_valid (clear_nodes conn).
Proof. unfold clear_nodes. walk. Qed.

Lemma make_nodes_handler_append_only (op_name : string) (ex : Exn) :
  append_only (make_nodes_handler op_name ex).
Proof. unfold make_nodes_handler. walk. Qed.

Lemma make_nodes_handler_contained (op_name : string) (ex : Exn) :
  contained (make_nodes_handler op_name ex).
Proof. unfold make_nodes_handler. walk. Qed.

Lemma make_nodes_handler_keeps_valid (op_name : string) (ex : Exn) :
  keeps_valid (make_nodes_handler op_name ex).
Proof. unfold make_nodes_handler. walk. Qed.

#[local] Hint Resolve clear_nodes_append_only make_nodes_handler_append_only
  make_nodes_handler_contained clear_nodes_keeps_valid
  make_nodes_handler_keeps_valid : ledger.

Lemma probe_make_nodes_append_only (conn : Value) (op_name : string) (op : Value) :
  append_only (probe_make_nodes conn op_name op).
Proof. unfold probe_make_nodes. walk. Qed.

Lemma probe_make_nodes_contained (conn : Value) (op_name : string) (op : Value) :
  contained (probe_make_nodes conn op_name op).
Proof. unfold probe_make_nodes. walk. Qed.

Lemma probe_make_nodes_keeps_valid (conn : Value) (op_name : string) (op : Value) :
  keeps_valid (probe_make_nodes conn op_name op).
Proof. unfold probe_make_nodes. walk. Qed.

#[local] Hint Resolve probe_make_nodes_append_only probe_make_nodes_contained
  probe_make_nodes_keeps_valid : ledger.

Lemma probe_basic_service_append_only (conn : Value) :
  append_only (probe_basic_service conn).
Proof. unfold probe_basic_service. walk. Qed.

Lemma probe_basic_service_contained (conn : Value) :
  contained (probe_basic_service conn).
Proof. unfold probe_basic_service. walk. Qed.

Lemma probe_basic_service_keeps_valid (conn : Value) :
  keeps_valid (probe_basic_service conn).
Proof. unfold probe_basic_service. walk. Qed.

Lemma probe_module_append_only (mj : Value) (entry : string * list string) :
  append_only (probe_module mj entry).
Proof. unfold probe_module. walk. Qed.

Lemma probe_module_contained (mj : Value) (entry : string * list string) :
  contained (probe_module mj entry).
Proof. unfold probe_module. walk. Qed.

Lemma probe_module_keeps_valid (mj : Value) (entry : string * list string) :
  keeps_valid (probe_module mj entry).
Proof. unfold probe_module. walk. Qed.

Lemma probe_check_append_only (ascent : Value) (check : string * string * list Value) :
  append_only (probe_check ascent check).
Proof. unfold probe_check. walk. Qed.

Lemma probe_check_contained (ascent : Value) (check : string * string * list Value) :
  contained (probe_check ascent check).
Proof. unfold probe_check. walk. Qed.

Lemma probe_check_keeps_valid (ascent : Value) (check : string * string * list Value) :
  keeps_valid (probe_check ascent check).
Proof. unfold probe_check. walk. Qed.

Lemma probe_operation_append_only (conn planner : Value) (make_nodes : bool)
    (op_name : string) :
  append_only (probe_operation conn planner make_nodes op_name).
Proof. unfold probe_operation. walk. Qed.

Lemma probe_operation_contained (conn planner : Value) (make_nodes : bool)
    (op_name : string) :
  contained (probe_operation conn planner make_nodes op_name).
Proof. unfold probe_operation. walk. Qed.

Lemma probe_operation_keeps_valid (conn planner : Value) (make_nodes : bool)
    (op_name : string) :
  keeps_valid (probe_operation conn planner make_nodes op_name).
Proof. unfold probe_operation. walk. Qed.

#[local] Hint Resolve probe_basic_service_append_only probe_module_append_only
  probe_check_append_only probe_operation_append_only
  probe_basic_service_contained probe_module_contained
  probe_check_contained probe_operation_contained
  probe_basic_service_keeps_valid probe_module_keeps_valid
  probe_check_keeps_valid probe_operation_keeps_valid : ledger.

(** Whatever the remote does, probing only appends to the ledger. *)
Lemma probing_append_only (conn : Value) (make_nodes : bool) :
  append_only (probing conn make_nodes).
Proof.
  unfold probing, probe_modules, probe_modules_of, probe_ascent_compat,
    probe_operations.
  walk.
Qed.

(** Whatever the remote does, no exception leaves the probes. *)
Lemma probing_contained (conn : Value) (make_nodes : bool) :
  contained (probing conn make_nodes).
Proof.
  unfold probing, probe_modules, probe_modules_of, probe_ascent_compat,
    probe_operations.
  walk.
Qed.

(** Whatever the remote does, probing records only statuses of the
    closed enumeration. *)
Lemma probing_keeps_valid (conn : Value) (make_nodes : bool) :
  keeps_valid (probing conn make_nodes).
Proof.
  unfold probing, probe_modules, probe_modules_of, probe_ascent_compat,
    probe_operations.
  walk.
Qed.

End Ledger.

(** ** The Surface Walker *)

Section Walker.
Context `{Sf : Surface}.

Lemma is_None_false (v : Value) : v <> VNone -> is_None v = false.
Proof. destruct v; intros H; try reflexivity. contradiction. Qed.

Lemma is_False_true (v : Value) : is_False v = true <-> v = VBool false.
Proof.
  destruct v as [|[|]| | | | | |]; simpl; split; intros H;
    try discriminate; try reflexivity.
Qed.

(** Probing the members of a present object appends one result each. *)
Lemma member_probes_count (module_name : string) (module : Value)
    (props : list string) (s : State) :
  exists news,
    results (snd (for_each props
                    (fun prop => safe_attr module_name module prop None ;; ret tt) s))
      = results s ++ news /\
    length news = length props.
Proof.
  revert s. induction props as [|prop props IH]; intros s; simpl.
  - exists []. now rewrite app_nil_r.
  - unfold bind at 1 2.
    destruct (safe_attr_appends_one module_name module prop None s)
      as (v & w & r & ->).
    unfold ret at 1.
    destruct (IH (recorded s w r)) as (news & -> & Hlen).
    exists (r :: news). simpl. rewrite <- app_assoc. auto.
Qed.

Lemma probe_module_absent (mj : Value) (module_name : string) (props : list string)
    (s s1 : State) :
  safe_read ("module." +:+ module_name) (py_getattr mj module_name) s = (Ret VNone, s1) ->
  probe_module mj (module_name, props) s = (Ret tt, s1).
Proof. intros H. unfold probe_module, bind. now rewrite H. Qed.

Lemma probe_module_present (mj : Value) (module_name : string) (props : list string)
    (s s1 : State) (module : Value) :
  safe_read ("module." +:+ module_name) (py_getattr mj module_name) s = (Ret module, s1) ->
  module <> VNone ->
  probe_module mj (module_name, props) s =
    for_each props (fun prop => safe_attr module_name module prop None ;; ret tt) s1.
Proof.
  intros H Hm. unfold probe_module, bind at 1. rewrite H.
  now rewrite (is_None_false _ Hm).
Qed.

(** C9: in the module/property walk, an entry whose object fetch returns
    None gets the one result recorded by the Safe Invoker for the fetch and
    no member probe: nothing else is appended and the remote is not
    accessed again. Members are probed, one result each, only when the
    fetch returned a present object. *)
Theorem absent_module_skipped (mj : Value) (module_name : string)
    (props : list string) (s : State) :
  (forall s1,
      safe_read ("module." +:+ module_name) (py_getattr mj module_name) s = (Ret VNone, s1) ->
      probe_module mj (module_name, props) s = (Ret tt, s1) /\
      exists st d,
        s1 = recorded s (snd (py_getattr mj module_name (world s)))
               (mkCheckResult ("module." +:+ module_name) st d)) /\
  (forall module s1,
      safe_read ("module." +:+ module_name) (py_getattr mj module_name) s = (Ret module, s1) ->
      module <> VNone ->
      probe_module mj (module_name, props) s =
        for_each props (fun prop => safe_attr module_name module prop None ;; ret tt) s1 /\
      exists r news,
        results (snd (probe_module mj (module_name, props) s)) = results s ++ r :: news /\
        name r = "module." +:+ module_name /\
        length news = length props).
Proof.
  split.
  - intros s1 H. split; [now apply probe_module_absent|].
    destruct (safe_read_appends_one ("module." +:+ module_name)
                (py_getattr mj module_name) s) as (v & st & d & E).
    rewrite E in H. injection H as _ <-. now exists st, d.
  - intros module s1 H Hm. split; [now apply probe_module_present|].
    rewrite (probe_module_present _ _ _ _ _ _ H Hm).
    destruct (safe_read_appends_one ("module." +:+ module_name)
                (py_getattr mj module_name) s) as (v & st & d & E).
    rewrite E in H. injection H as _ <-.
    destruct (member_probes_count module_name module props
                (recorded s (snd (py_getattr mj module_name (world s)))
                   (mkCheckResult ("module." +:+ module_name) st d)))
      as (news & -> & Hlen).
    eexists _, news. simpl. rewrite <- app_assoc. repeat split; auto.
Qed.

Lemma probe_basic_service_absent (conn : Value) (s : State) (w : World) :
  py_getattr conn "mech_jeb"
    (world (snd (safe_read "krpc.version" (read_version conn) s))) = (Ret VNone, w) ->
  probe_basic_service conn s =
    (Ret VNone,
     recorded (snd (safe_read "krpc.version" (read_version conn) s)) w
       (mkCheckResult "service.mech_jeb" "PASS" (repr VNone))).
Proof.
  intros H. unfold probe_basic_service, bind at 1.
  destruct (safe_read_appends_one "krpc.version" (read_version conn) s)
    as (v & st & d & E).
  rewrite E in *. cbn [snd] in *. unfold bind.
  rewrite (safe_read_returns "service.mech_jeb" _ (recorded s _ _) _ _ H).
  reflexivity.
Qed.

(** C10: a read that succeeds with the value None is recorded as PASS
    and returns None, the value a failed read returns; the walkers then
    skip every dependent probe: nothing more is appended and the remote is
    not accessed again for that object. *)
Theorem none_value_skips_dependents :
  (forall name fn s w,
      fn (world s) = (Ret VNone, w) ->
      safe_read name fn s =
        (Ret VNone, recorded s w (mkCheckResult name "PASS" (repr VNone)))) /\
  (forall name fn s w ex,
      fn (world s) = (Raise ex, w) ->
      fst (safe_read name fn s) = Ret VNone) /\
  (forall conn make_nodes s w,
      py_getattr conn "mech_jeb"
        (world (snd (safe_read "krpc.version" (read_version conn) s))) = (Ret VNone, w) ->
      probe_basic_service conn s =
        (Ret VNone,
         recorded (snd (safe_read "krpc.version" (read_version conn) s)) w
           (mkCheckResult "service.mech_jeb" "PASS" (repr VNone))) /\
      probing conn make_nodes s =
        (Ret tt,
         recorded (snd (safe_read "krpc.version" (read_version conn) s)) w
           (mkCheckResult "service.mech_jeb" "PASS" (repr VNone)))) /\
  (forall mj module_name props s w,
      py_getattr mj module_name (world s) = (Ret VNone, w) ->
      probe_module mj (module_name, props) s =
        (Ret tt, recorded s w (mkCheckResult ("module." +:+ module_name) "PASS"
                                 (repr VNone)))) /\
  (forall conn mj make_nodes s w,
      py_getattr mj "maneuver_planner" (world s) = (Ret VNone, w) ->
      probe_operations conn mj make_nodes s =
        (Ret tt, recorded s w (mkCheckResult "maneuver_planner" "PASS" (repr VNone)))) /\
  (forall conn planner make_nodes op_name s w,
      py_getattr planner op_name (world s) = (Ret VNone, w) ->
      probe_operation conn planner make_nodes op_name s =
        (Ret tt, recorded s w (mkCheckResult ("op." +:+ op_name) "PASS" (repr VNone)))).
Proof.
  repeat split.
  - intros name fn s w H. now apply safe_read_returns.
  - intros name fn s w ex H. now rewrite (safe_read_raises _ _ _ _ _ H).
  - now apply probe_basic_service_absent.
  - unfold probing, bind. now rewrite (probe_basic_service_absent _ _ _ H).
  - intros mj module_name props s w H. apply probe_module_absent.
    now apply safe_read_returns.
  - intros conn mj make_nodes s w H. unfold probe_operations, bind.
    now rewrite (safe_read_returns _ _ _ _ _ H).
  - intros conn planner make_nodes op_name s w H. unfold probe_operation, bind.
    now rewrite (safe_read_returns _ _ _ _ _ H).
Qed.

End Walker.

(** ** The basic service probe and the ledger discipline *)

Section Service.
Context `{Sf : Surface}.

Lemma probe_basic_service_present (conn : Value) (s : State) (mj : Value) (w : World) :
  py_getattr conn "mech_jeb"
    (world (snd (safe_read "krpc.version" (read_version conn) s))) = (Ret mj, w) ->
  mj <> VNone ->
  probe_basic_service conn s =
    (ready <- safe_read "mech_jeb.api_ready" (py_getattr mj "api_ready") ;;
     (if is_False ready
      then append (mkCheckResult "mech_jeb.api_ready" "FAIL" "API is not ready")
      else ret tt) ;;
     ret mj)
      (recorded (snd (safe_read "krpc.version" (read_version conn) s)) w
         (mkCheckResult "service.mech_jeb" "PASS" (repr mj))).
Proof.
  intros H Hm. unfold probe_basic_service, bind at 1.
  destruct (safe_read_appends_one "krpc.version" (read_version conn) s)
    as (v & st & d & E).
  rewrite E in *. cbn [snd] in *. unfold bind at 1.
  rewrite (safe_read_returns "service.mech_jeb" _ (recorded s _ _) _ _ H).
  now rewrite (is_None_false _ Hm).
Qed.

(** C6, as the program has it: every call of the Safe Invoker and of the
    Capability Prober appends exactly one result at the end of the ledger;
    probing never changes or removes an earlier result; and the api_ready
    read appends the result of the read and, when the value read is False,
    a second result FAIL "API is not ready" under the same name. *)
Theorem ledger_discipline :
  (forall name fn s,
      exists value r,
        safe_read name fn s = (Ret value, recorded s (snd (fn (world s))) r)) /\
  (forall owner_name obj attr aliases s,
      exists value w r,
        safe_attr owner_name obj attr aliases s = (Ret value, recorded s w r)) /\
  (forall conn make_nodes s,
      exists new,
        results (snd (probing conn make_nodes s)) = results s ++ new) /\
  (forall conn s mj w2,
      py_getattr conn "mech_jeb"
        (world (snd (safe_read "krpc.version" (read_version conn) s))) = (Ret mj, w2) ->
      mj <> VNone ->
      let s2 := recorded (snd (safe_read "krpc.version" (read_version conn) s)) w2
                  (mkCheckResult "service.mech_jeb" "PASS" (repr mj)) in
      (forall w3,
          py_getattr mj "api_ready" w2 = (Ret (VBool false), w3) ->
          probe_basic_service conn s =
            (Ret mj,
             mkState w3
               (results s2 ++
                  [ mkCheckResult "mech_jeb.api_ready" "PASS" (repr (VBool false));
                    mkCheckResult "mech_jeb.api_ready" "FAIL" "API is not ready" ])
               (stdout s2))) /\
      (forall out w3,
          py_getattr mj "api_ready" w2 = (out, w3) ->
          out <> Ret (VBool false) ->
          exists st d,
            probe_basic_service conn s =
              (Ret mj, recorded s2 w3 (mkCheckResult "mech_jeb.api_ready" st d)))).
Proof.
  split; [|split; [|split]].
  - intros name fn s.
    destruct (safe_read_appends_one name fn s) as (v & st & d & ->). now eexists _, _.
  - intros. apply safe_attr_appends_one.
  - intros conn make_nodes s.
    destruct (probing_append_only conn make_nodes s) as [[new Hnew] _]. now exists new.
  - intros conn s mj w2 H Hm s2. split.
    + intros w3 Hr. rewrite (probe_basic_service_present _ _ _ _ H Hm). fold s2.
      unfold bind at 1.
      rewrite (safe_read_returns "mech_jeb.api_ready" _ s2 _ _ Hr). simpl.
      unfold bind, append, ret, recorded. simpl. now rewrite <- app_assoc.
    + intros out w3 Hr Hout. rewrite (probe_basic_service_present _ _ _ _ H Hm). fold s2.
      unfold bind at 1. destruct out as [v|ex].
      * rewrite (safe_read_returns "mech_jeb.api_ready" _ s2 _ _ Hr).
        destruct (is_False v) eqn:Hf.
        { apply is_False_true in Hf. subst v. contradiction. }
        now eexists _, _.
      * rewrite (safe_read_raises "mech_jeb.api_ready" _ s2 _ _ Hr). now eexists _, _.
Qed.

End Service.

(** ** Node generation and cleanup *)

Section Cleanup.
Context `{Sf : Surface}.

Lemma remove_nodes_keeps_ledger (nodes : list Value) (removed : nat) (s : State) :
  results (snd (remove_nodes nodes removed s)) = results s /\
  stdout (snd (remove_nodes nodes removed s)) = stdout s.
Proof.
  revert removed s. induction nodes as [|node rest IH]; intros removed s; simpl.
  - auto.
  - unfold bind, remote. destruct (py_call node "remove" [] (world s)) as [[v|e] w].
    + apply (IH (removed + 1) (mkState w (results s) (stdout s))).
    + auto.
Qed.

Lemma remove_nodes_counts (nodes : list Value) (removed : nat) (s s' : State) (k : nat) :
  remove_nodes nodes removed s = (Ret k, s') -> k = removed + length nodes.
Proof.
  revert removed s. induction nodes as [|node rest IH]; intros removed s; simpl.
  - unfold ret. intros [= <- _]. lia.
  - unfold bind, remote. destruct (py_call node "remove" [] (world s)) as [[v|e] w].
    + intros H. apply IH in H. lia.
    + discriminate.
Qed.

(** The steps of [clear_nodes] after the nodes were listed. *)
Lemma clear_nodes_steps (conn : Value) (s : State) :
  (exists ex s', clear_nodes conn s = (Raise ex, s') /\
                 results s' = results s /\ stdout s' = stdout s) \/
  (exists w l,
      clear_nodes conn s =
        (removed <- remove_nodes l 0 ;;
         append (mkCheckResult "space_center.clear_nodes" "PASS"
                   ("removed=" +:+ fmt_nat removed)))
          (reached s w)).
Proof.
  unfold clear_nodes, bind, remote, of_res, reached.
  destruct (py_getattr conn "space_center" (world s)) as [[space_center|e] w0];
    [|left; now eexists _, _].
  destruct (py_getattr space_center "active_vessel" w0) as [[vessel|e] w1];
    [|left; now eexists _, _].
  cbn [world results stdout].
  destruct (py_getattr vessel "control" w1) as [[control|e] w2];
    [|left; now eexists _, _].
  destruct (py_getattr control "nodes" w2) as [[nodes|e] w3];
    [|left; now eexists _, _].
  destruct (to_list nodes) as [l|e]; [|left; now eexists _, _].
  right. now exists w3, l.
Qed.

(** A cleanup that returns has recorded itself once, with the number of
    nodes it removed. *)
Lemma clear_nodes_returns (conn : Value) (s s' : State) :
  clear_nodes conn s = (Ret tt, s') ->
  exists k,
    s' = recorded s (world s')
           (mkCheckResult "space_center.clear_nodes" "PASS" ("removed=" +:+ fmt_nat k)).
Proof.
  destruct (clear_nodes_steps conn s) as [(ex & s1 & -> & _)|(w & l & ->)];
    [discriminate|].
  unfold bind.
  pose proof (remove_nodes_keeps_ledger l 0 (reached s w)) as [Hr Ho].
  destruct (remove_nodes l 0 (reached s w)) as [[k|e] s3]; [|discriminate].
  unfold append. intros [= <-]. exists k. unfold recorded. simpl in *. now rewrite Hr, Ho.
Qed.

(** A cleanup that raises has recorded nothing. *)
Lemma clear_nodes_raises (conn : Value) (s s' : State) (ex : Exn) :
  clear_nodes conn s = (Raise ex, s') ->
  results s' = results s /\ stdout s' = stdout s.
Proof.
  destruct (clear_nodes_steps conn s) as [(ex1 & s1 & -> & Hr & Ho)|(w & l & ->)].
  - now intros [= _ <-].
  - unfold bind.
    pose proof (remove_nodes_keeps_ledger l 0 (reached s w)) as [Hr Ho].
    destruct (remove_nodes l 0 (reached s w)) as [[k|e] s3]; [discriminate|].
    intros [= _ <-]. auto.
Qed.

(** Cleanup is reached only through a node generation that returned. *)
Lemma cleanup_follows_success (conn : Value) (op_name : string) (op : Value)
    (s : State) (nodes : Value) (w : World) (count : nat) (s' : State) :
  py_call op "make_nodes" [] (world s) = (Ret nodes, w) ->
  len nodes = Ret count ->
  clear_nodes conn
    (recorded s w (mkCheckResult ("op." +:+ op_name +:+ ".make_nodes") "PASS"
                     ("nodes=" +:+ fmt_nat count))) = (Ret tt, s') ->
  probe_make_nodes conn op_name op s = (Ret tt, s') /\
  exists k,
    results s' =
      results s ++
        [ mkCheckResult ("op." +:+ op_name +:+ ".make_nodes") "PASS"
            ("nodes=" +:+ fmt_nat count);
          mkCheckResult "space_center.clear_nodes" "PASS" ("removed=" +:+ fmt_nat k) ].
Proof.
  intros Hm Hl Hc. split.
  - unfold probe_make_nodes, try_except, bind at 1, remote. rewrite Hm.
    unfold bind at 1, of_res. rewrite Hl. unfold bind, append.
    unfold recorded in Hc. cbn [world results stdout]. now rewrite Hc.
  - destruct (clear_nodes_returns _ _ _ Hc) as [k ->]. exists k.
    simpl. now rewrite <- app_assoc.
Qed.

(** C7, the divergence: when node generation returned and the cleanup
    raises, the cleanup is not recorded under its own name; its failure is
    appended as a second result of the node-generation probe. *)
Theorem cleanup_failure_mislabelled (conn : Value) (op_name : string) (op : Value)
    (s : State) (nodes : Value) (w : World) (count : nat) (ex : Exn) (s' : State) :
  py_call op "make_nodes" [] (world s) = (Ret nodes, w) ->
  len nodes = Ret count ->
  clear_nodes conn
    (recorded s w (mkCheckResult ("op." +:+ op_name +:+ ".make_nodes") "PASS"
                     ("nodes=" +:+ fmt_nat count))) = (Raise ex, s') ->
  probe_make_nodes conn op_name op s =
    (Ret tt,
     mkState (world s')
       (results s ++
          [ mkCheckResult ("op." +:+ op_name +:+ ".make_nodes") "PASS"
              ("nodes=" +:+ fmt_nat count);
            mkCheckResult ("op." +:+ op_name +:+ ".make_nodes")
              (if has_crash_marker (str ex) then "FAIL_CRASH"
               else if is_expected_operation_error (str ex) then "EXPECTED_FAIL"
               else "FAIL")
              (str ex) ])
       (stdout s)) /\
  named "space_center.clear_nodes" (results (snd (probe_make_nodes conn op_name op s)))
    = named "space_center.clear_nodes" (results s).
Proof.
  intros Hm Hl Hc.
  destruct (clear_nodes_raises _ _ _ _ Hc) as [Hr Ho]. simpl in Hr, Ho.
  assert (E : probe_make_nodes conn op_name op s = make_nodes_handler op_name ex s').
  { unfold probe_make_nodes, try_except, bind at 1, remote. rewrite Hm.
    unfold bind at 1, of_res. rewrite Hl. unfold bind, append.
    unfold recorded in Hc. cbn [world results stdout]. now rewrite Hc. }
  rewrite E. unfold make_nodes_handler.
  destruct (has_crash_marker (str ex)); [|destruct (is_expected_operation_error (str ex))];
    unfold append; rewrite Hr, Ho;
    (split; [rewrite <- app_assoc; reflexivity|]);
    simpl; unfold named; rewrite !List.filter_app; simpl; now rewrite !app_nil_r.
Qed.

End Cleanup.

(** ** The run: exit codes and what is printed *)

Section Run.
Context `{Sf : Surface}.

(** C5, as the program has it: when an exception leaves the probing
    phase, the run prints the one line announcing it, closes the
    connection and returns 3; the ledger collected so far is kept but the
    reporter is not called, so no result line and no summary is printed. *)
Theorem escaped_failure_exits_3 (conn : Value) (body : M unit) (s s1 : State) (ex : Exn) :
  body s = (Raise ex, s1) ->
  run_probes conn body s =
    (Ret 3%Z,
     mkState (conn_close conn (world s1)) (results s1)
       (stdout s1 ++ ["[FAIL] unhandled exception during smoke test"])).
Proof.
  intros H. unfold run_probes, bind at 1, try_except, bind at 1. now rewrite H.
Qed.

(** A probing phase that returns is followed by the closing of the
    connection and by the reporter. *)
Lemma completed_run_reports (conn : Value) (body : M unit) (s s1 : State) :
  body s = (Ret tt, s1) ->
  run_probes conn body s =
    summarize (results s1) (mkState (conn_close conn (world s1)) (results s1) (stdout s1)).
Proof.
  intros H. unfold run_probes, bind at 1, try_except, bind at 1. now rewrite H.
Qed.

(** After a probing phase that returned, every result has its line in
    the output. *)
Lemma completed_run_prints_report (conn : Value) (body : M unit) (s s1 : State) :
  body s = (Ret tt, s1) ->
  report_printed (snd (run_probes conn body s)).
Proof.
  intros H. rewrite (completed_run_reports _ _ _ _ H).
  set (s2 := mkState (conn_close conn (world s1)) (results s1) (stdout s1)).
  destruct (summarize_prints (results s1) s2) as [summary Hout].
  intros r Hin. rewrite Hout. unfold summarize, bind in *. rewrite print_each in *.
  simpl in *. apply in_or_app. right. apply in_or_app. left. now apply in_map.
Qed.

(** The program's own probing phase always reaches the reporter. *)
Lemma run_always_reports (conn : Value) (make_nodes : bool) (s : State) :
  exists s1,
    probing conn make_nodes s = (Ret tt, s1) /\
    run_probes conn (probing conn make_nodes) s =
      summarize (results s1) (mkState (conn_close conn (world s1)) (results s1) (stdout s1)).
Proof.
  destruct (probing_contained conn make_nodes s) as [[] Ha].
  destruct (probing conn make_nodes s) as [r s1] eqn:E. simpl in Ha. subst r.
  exists s1. split; [reflexivity|]. now apply completed_run_reports.
Qed.

Lemma summarize_keeps_ledger (rs : list CheckResult) (s : State) :
  results (snd (summarize rs s)) = results s /\
  world (snd (summarize rs s)) = world s.
Proof. unfold summarize, bind. rewrite print_each. split; reflexivity. Qed.

(** X2: when the connection cannot be established, main prints the
    failure, probes nothing and returns 2. *)
Theorem main_connect_fails (args : Args) (w w' : World) (ex : Exn) :
  krpc_connect (arg_name args) (arg_address args) (arg_rpc_port args)
    (arg_stream_port args) w = (Raise ex, w') ->
  main args w = (Ret 2%Z, mkState w' [] ["[FAIL] connect: " +:+ str ex]).
Proof.
  intros H. unfold main, main_body, bind at 1, try_except, bind at 1, remote.
  cbn [world]. now rewrite H.
Qed.

(** X1: once connected, the run ends in the reporter: it returns 0 when
    the ledger that probing built holds no FAIL and no FAIL_CRASH, and 1
    when it holds one; it never returns 3 and never raises. *)
Theorem main_exit_code (args : Args) (w w1 : World) (conn : Value) :
  krpc_connect (arg_name args) (arg_address args) (arg_rpc_port args)
    (arg_stream_port args) w = (Ret conn, w1) ->
  exists s1,
    probing conn (arg_make_nodes args) (mkState w1 [] []) = (Ret tt, s1) /\
    results (snd (main args w)) = results s1 /\
    world (snd (main args w)) = conn_close conn (world s1) /\
    (fst (main args w) = Ret 0%Z <->
       forall r, In r (results s1) -> status r <> "FAIL" /\ status r <> "FAIL_CRASH") /\
    (fst (main args w) = Ret 1%Z <->
       exists r, In r (results s1) /\ (status r = "FAIL" \/ status r = "FAIL_CRASH")).
Proof.
  intros H.
  destruct (run_always_reports conn (arg_make_nodes args) (mkState w1 [] []))
    as (s1 & Hp & Hrun).
  assert (E : main args w =
              summarize (results s1)
                (mkState (conn_close conn (world s1)) (results s1) (stdout s1))).
  { unfold main, main_body, bind at 1, try_except, bind at 1, remote.
    cbn [world results stdout]. rewrite H. unfold ret at 1. exact Hrun. }
  exists s1. split; [exact Hp|]. rewrite E.
  destruct (summarize_keeps_ledger (results s1)
              (mkState (conn_close conn (world s1)) (results s1) (stdout s1)))
    as [Hr Hw].
  split; [exact Hr|]. split; [exact Hw|].
  assert (Hv : Forall valid_result (results s1)).
  { pose proof (probing_keeps_valid conn (arg_make_nodes args) (mkState w1 [] [])) as Hk.
    rewrite Hp in Hk. apply Hk. constructor. }
  rewrite !summarize_returns.
  destruct (failures_counted (results s1) Hv) as [[Ef Hno]|(r0 & fail & Ef & Hin0 & Hst0)];
    rewrite Ef.
  - split; [split; auto|]. split; [discriminate|]. intros (r & Hin & Hst).
    destruct (Hno r Hin). destruct Hst; contradiction.
  - split; [|split; eauto]. split; [discriminate|]. intros Hno.
    destruct (Hno r0 Hin0). destruct Hst0; contradiction.
Qed.

End Run.

(** ** The statements at work on the scripted surface *)

(** A crash message that also holds the expected words "cannot" and
    "target" is recorded as FAIL_CRASH at the node-generation call site. *)
Lemma crash_marker_wins_witness :
  In "NullReferenceException" CRASH_MARKERS /\
  Substring "NullReferenceException" "NullReferenceException: cannot find target" /\
  is_expected_operation_error "NullReferenceException: cannot find target" = true /\
  probe_make_nodes Demo.conn "operation_transfer" Demo.op (Demo.start Demo.crashing) =
    (Ret tt,
     mkState (Demo.logged "make_nodes" Demo.crashing)
       [ mkCheckResult "op.operation_transfer.make_nodes" "FAIL_CRASH"
           "NullReferenceException: cannot find target" ]
       []).
Proof.
  assert (Hin : In "NullReferenceException" CRASH_MARKERS) by (simpl; auto).
  assert (Hsub : Substring "NullReferenceException"
                   "NullReferenceException: cannot find target")
    by (exists "", ": cannot find target"; reflexivity).
  split; [exact Hin|]. split; [exact Hsub|]. split; [reflexivity|].
  exact (proj2 (crash_marker_wins
                  (Exception "NullReferenceException: cannot find target")
                  "NullReferenceException" Hin Hsub)
           Demo.conn "operation_transfer" Demo.op (Demo.start Demo.crashing) _ eq_refl).
Defined.

(** A ledger with only PASS, EXPECTED_FAIL and SKIP results exits with 0. *)
Lemma summarize_exit_code_witness :
  Forall valid_result Demo.soft_ledger /\
  fst (summarize Demo.soft_ledger (Demo.start Demo.healthy)) = Ret 0%Z.
Proof.
  assert (Hv : Forall valid_result Demo.soft_ledger)
    by (repeat constructor; unfold valid_result; simpl; auto 10).
  split; [exact Hv|].
  apply (proj1 (summarize_exit_code Demo.soft_ledger (Demo.start Demo.healthy) Hv)).
  intros r [<-|[<-|[<-|[]]]]; split; discriminate.
Defined.

(** "No transfer window currently available" is EXPECTED_FAIL at the
    node-generation call site and FAIL when it fails a Safe Invoker read. *)
Lemma expected_marker_by_call_site_witness :
  has_crash_marker "No transfer window currently available" = false /\
  Substring "no transfer" (lower "No transfer window currently available") /\
  probe_make_nodes Demo.conn "operation_transfer" Demo.op (Demo.start Demo.no_window) =
    (Ret tt,
     mkState (Demo.logged "make_nodes" Demo.no_window)
       [ mkCheckResult "op.operation_transfer.make_nodes" "EXPECTED_FAIL"
           "No transfer window currently available" ]
       []) /\
  safe_read "op.operation_transfer.make_nodes" (py_call Demo.op "make_nodes" [])
    (Demo.start Demo.no_window) =
    (Ret VNone,
     mkState (Demo.logged "make_nodes" Demo.no_window)
       [ mkCheckResult "op.operation_transfer.make_nodes" "FAIL"
           "No transfer window currently available" ]
       []).
Proof.
  assert (Hno : has_crash_marker "No transfer window currently available" = false)
    by reflexivity.
  assert (Hin : In "no transfer" EXPECTED_OPERATION_MARKERS) by (simpl; auto 10).
  assert (Hsub : Substring "no transfer" (lower "No transfer window currently available"))
    by (exists "", " window currently available"; reflexivity).
  pose proof (expected_marker_by_call_site
                (Exception "No transfer window currently available") "no transfer"
                (proj1 (no_crash_marker_spec _) Hno) Hin Hsub) as (Hsite & Hread & _).
  split; [exact Hno|]. split; [exact Hsub|]. split.
  - exact (Hsite Demo.conn "operation_transfer" Demo.op (Demo.start Demo.no_window) _ eq_refl).
  - exact (Hread "op.operation_transfer.make_nodes" (py_call Demo.op "make_nodes" [])
             (Demo.start Demo.no_window) _ eq_refl).
Defined.

(** A successful read through the Safe Invoker: one PASS result with the
    value's representation, and the value returned. *)
Lemma safe_read_contract_witness :
  safe_read "krpc.version" (read_version Demo.conn) (Demo.start Demo.healthy) =
    (Ret (VObj "version" 0),
     mkState (Demo.logged "version"
                (Demo.logged "get_status" (Demo.logged "krpc" Demo.healthy)))
       [ mkCheckResult "krpc.version" "PASS" "<version>" ] []).
Proof.
  exact (proj1 (proj2 (safe_read_contract "krpc.version" (read_version Demo.conn)
                         (Demo.start Demo.healthy)))
           (VObj "version" 0) _ eq_refl).
Defined.

(** The claim of C5 fails: after an escaped failure the run returns 3 and
    the one collected result has no line in the output. *)
Lemma escaped_failure_report_missing :
  ~ (forall (Sf : Surface) (conn : Value) (body : M unit) (s s1 : State) (ex : Exn),
        body s = (Raise ex, s1) ->
        fst (run_probes conn body s) = Ret 3%Z /\
        report_printed (snd (run_probes conn body s))).
Proof.
  intros H.
  destruct (H Demo.scripted Demo.conn Demo.defective_walk (Demo.start Demo.healthy)
              _ _ eq_refl) as [_ Hp].
  specialize (Hp _ (or_introl eq_refl)). vm_compute in Hp.
  destruct Hp as [Hp|[]]. discriminate.
Qed.

(** An escaped failure: exit code 3, one line printed, the ledger kept. *)
Lemma escaped_failure_exits_3_witness :
  fst (Demo.defective_walk (Demo.start Demo.healthy)) =
    Raise (Exception "list index out of range") /\
  fst (run_probes Demo.conn Demo.defective_walk (Demo.start Demo.healthy)) = Ret 3%Z /\
  results (snd (run_probes Demo.conn Demo.defective_walk (Demo.start Demo.healthy))) =
    [ mkCheckResult "krpc.version" "PASS" "<version>" ] /\
  stdout (snd (run_probes Demo.conn Demo.defective_walk (Demo.start Demo.healthy))) =
    [ "[FAIL] unhandled exception during smoke test" ].
Proof.
  split; [reflexivity|].
  rewrite (escaped_failure_exits_3 Demo.conn Demo.defective_walk
             (Demo.start Demo.healthy) _ _ eq_refl).
  repeat split.
Defined.

(** The claim of C6 fails: one read of [api_ready] that returns False
    leaves two results under its name. *)
Lemma api_ready_recorded_twice :
  ~ (forall (Sf : Surface) (conn : Value) (w : World),
        length (named "mech_jeb.api_ready"
                  (results (snd (probe_basic_service conn (mkState w [] []))))) <= 1).
Proof.
  intros H. specialize (H Demo.scripted Demo.conn Demo.api_not_ready).
  vm_compute in H. lia.
Qed.

(** The ledger after the basic service probe when [api_ready] is False. *)
Lemma ledger_discipline_witness :
  results (snd (probe_basic_service Demo.conn (Demo.start Demo.api_not_ready))) =
    [ mkCheckResult "krpc.version" "PASS" "<version>";
      mkCheckResult "service.mech_jeb" "PASS" "<mech_jeb>";
      mkCheckResult "mech_jeb.api_ready" "PASS" "False";
      mkCheckResult "mech_jeb.api_ready" "FAIL" "API is not ready" ].
Proof.
  assert (Hm : VObj "mech_jeb" 0 <> VNone) by discriminate.
  rewrite (proj1 (proj2 (proj2 (proj2 ledger_discipline))
                    Demo.conn (Demo.start Demo.api_not_ready) (VObj "mech_jeb" 0)
                    _ eq_refl Hm) _ eq_refl).
  reflexivity.
Defined.

(** The failing input of C7: node generation returns one node and its
    removal fails; the failure is a second result of the node-generation
    probe and the cleanup has no result of its own. *)
Lemma cleanup_failure_mislabelled_witness :
  probe_make_nodes Demo.conn "operation_transfer" Demo.op (Demo.start Demo.cleanup_fails) =
    (Ret tt,
     mkState
       (Demo.mkScript (Demo.raising Demo.cleanup_fails) (Demo.returning Demo.cleanup_fails)
          [] []
          ["make_nodes"; "space_center"; "active_vessel"; "control"; "nodes"; "remove"])
       [ mkCheckResult "op.operation_transfer.make_nodes" "PASS" "nodes=1";
         mkCheckResult "op.operation_transfer.make_nodes" "FAIL" "Connection reset by peer" ]
       []).
Proof.
  destruct (cleanup_failure_mislabelled Demo.conn "operation_transfer" Demo.op
              (Demo.start Demo.cleanup_fails) (VList [VObj "Node" 1]) _ 1
              (Exception "Connection reset by peer") _ eq_refl eq_refl eq_refl)
    as [E _].
  rewrite E. reflexivity.
Defined.

(** Only the alias is exposed: the read and its result go by the alias. *)
Lemma safe_attr_resolution_witness :
  safe_attr "op.operation_transfer.time_selector" (VObj "time_selector" 0)
    "time_reference" (Some ["current_time_reference"]) (Demo.start Demo.alias_only) =
    (Ret (VObj "current_time_reference" 0),
     mkState (Demo.logged "current_time_reference" (Demo.logged "dir" Demo.alias_only))
       [ mkCheckResult "op.operation_transfer.time_selector.current_time_reference"
           "PASS" "<current_time_reference>" ]
       []).
Proof.
  assert (Hpre : forall n, In n ["time_reference"] ->
                           ~ In n ["allowed_time_references"; "current_time_reference"]).
  { intros n [<-|[]] [H|[H|[]]]; discriminate. }
  assert (Hm : In "current_time_reference"
                 ["allowed_time_references"; "current_time_reference"])
    by (simpl; auto).
  destruct (proj1 (safe_attr_resolution "op.operation_transfer.time_selector"
                     (VObj "time_selector" 0) "time_reference"
                     (Some ["current_time_reference"]) (Demo.start Demo.alias_only))
              ["allowed_time_references"; "current_time_reference"]
              (Demo.logged "dir" Demo.alias_only)
              ["time_reference"] "current_time_reference" []
              eq_refl eq_refl Hpre Hm) as [E _].
  rewrite E. reflexivity.
Defined.

(** The module [smart_ass] cannot be fetched: one result, and the remote
    saw the fetch only. *)
Lemma absent_module_skipped_witness :
  probe_module (VObj "mech_jeb" 0)
    ("smart_ass", ["autopilot_mode"; "force_roll"; "force_pitch"; "force_yaw"])
    (Demo.start Demo.no_smart_ass) =
    (Ret tt,
     mkState (Demo.logged "smart_ass" Demo.no_smart_ass)
       [ mkCheckResult "module.smart_ass" "FAIL" "No such module" ] []).
Proof.
  exact (proj1 (proj1 (absent_module_skipped (VObj "mech_jeb" 0) "smart_ass"
                         ["autopilot_mode"; "force_roll"; "force_pitch"; "force_yaw"]
                         (Demo.start Demo.no_smart_ass))
                  _ eq_refl)).
Defined.

(** [conn.mech_jeb] reads as None: a PASS is recorded and probing stops. *)
Lemma none_value_skips_dependents_witness :
  probing Demo.conn true (Demo.start Demo.no_service) =
    (Ret tt,
     mkState
       (Demo.logged "mech_jeb"
          (Demo.logged "version"
             (Demo.logged "get_status" (Demo.logged "krpc" Demo.no_service))))
       [ mkCheckResult "krpc.version" "PASS" "<version>";
         mkCheckResult "service.mech_jeb" "PASS" "None" ]
       []).
Proof.
  exact (proj2 (proj1 (proj2 (proj2 none_value_skips_dependents))
                  Demo.conn true (Demo.start Demo.no_service) _ eq_refl)).
Defined.

(** A connected run against a service that reads as None: two PASS
    results, exit code 0. *)
Lemma main_exit_code_witness :
  krpc_connect (Surface := Demo.scripted) "mechjeb-smoke" "127.0.0.1" 50000 50001
    Demo.no_service =
    (Ret (VObj "connect" 0), Demo.logged "connect" Demo.no_service) /\
  fst (main (Sf := Demo.scripted) (Demo.args true) Demo.no_service) = Ret 0%Z.
Proof.
  split; [reflexivity|].
  destruct (main_exit_code (Sf := Demo.scripted) (Demo.args true) Demo.no_service
              _ _ eq_refl)
    as (s1 & Hp & _ & _ & H0 & _).
  apply H0. vm_compute in Hp. injection Hp as <-.
  intros r [<-|[<-|[]]]; split; discriminate.
Defined.

(** A refused connection: exit code 2, an empty ledger, one line printed. *)
Lemma main_connect_fails_witness :
  main (Sf := Demo.scripted) (Demo.args false) Demo.unreachable =
    (Ret 2%Z,
     mkState (Demo.logged "connect" Demo.unreachable) []
       [ "[FAIL] connect: Connection refused" ]).
Proof.
  exact (main_connect_fails (Sf := Demo.scripted) (Demo.args false) Demo.unreachable
           _ (Exception "Connection refused") eq_refl).
Defined.

(** ** What a run prints and releases *)

Section Output.
Context `{Sf : Surface}.

Lemma summarize_state (rs : list CheckResult) (s : State) :
  snd (summarize rs s) =
    mkState (world s) (results s)
      (stdout s ++ map report_line rs ++ [""; summary_line rs]).
Proof.
  unfold summarize, bind. rewrite print_each. simpl.
  rewrite <- !app_assoc. reflexivity.
Qed.

(** A connected run is the reporter applied to the ledger that probing
    built, on an output that is still empty. *)
Lemma main_connected (args : Args) (w w1 : World) (conn : Value) :
  krpc_connect (arg_name args) (arg_address args) (arg_rpc_port args)
    (arg_stream_port args) w = (Ret conn, w1) ->
  exists s1,
    probing conn (arg_make_nodes args) (mkState w1 [] []) = (Ret tt, s1) /\
    stdout s1 = [] /\
    main args w =
      summarize (results s1) (mkState (conn_close conn (world s1)) (results s1) (stdout s1)).
Proof.
  intros H.
  destruct (run_always_reports conn (arg_make_nodes args) (mkState w1 [] []))
    as (s1 & Hp & Hrun).
  exists s1. split; [exact Hp|]. split.
  - pose proof (probing_append_only conn (arg_make_nodes args) (mkState w1 [] [])) as [_ Ho].
    now rewrite Hp in Ho.
  - unfold main, main_body, bind at 1, try_except, bind at 1, remote.
    cbn [world results stdout]. rewrite H. unfold ret at 1. exact Hrun.
Qed.

(** X3: the output of a connected run is one line per result of the final
    ledger, in ledger order, then an empty line, then the summary line of
    that ledger; nothing else is printed. *)
Theorem main_report (args : Args) (w w1 : World) (conn : Value) :
  krpc_connect (arg_name args) (arg_address args) (arg_rpc_port args)
    (arg_stream_port args) w = (Ret conn, w1) ->
  stdout (snd (main args w)) =
    map report_line (results (snd (main args w)))
    ++ [""; summary_line (results (snd (main args w)))].
Proof.
  intros H. destruct (main_connected args w w1 conn H) as (s1 & _ & Hout & ->).
  rewrite summarize_state. simpl. now rewrite Hout.
Qed.


(** X5: whatever the probing phase does, returning or raising, the run
    around it does not raise, closes the connection as its last remote
    action, and leaves the ledger as probing left it. *)
Theorem run_releases_connection (conn : Value) (body : M unit) (s : State) :
  (exists code, fst (run_probes conn body s) = Ret code) /\
  world (snd (run_probes conn body s)) = conn_close conn (world (snd (body s))) /\
  results (snd (run_probes conn body s)) = results (snd (body s)).
Proof.
  destruct (body s) as [[[]|ex] s1] eqn:E.
  - rewrite (completed_run_reports _ _ _ _ E).
    split; [|split].
    + rewrite summarize_returns. eauto.
    + rewrite summarize_state. reflexivity.
    + rewrite summarize_state. reflexivity.
  - unfold run_probes, bind, try_except, print, close, ret. rewrite E. cbn.
    split; [now exists 3%Z | split; reflexivity].
Qed.

End Output.

(** ** The ascent walk, node generation and cleanup in detail *)

Section Details.
Context `{Sf : Surface}.

(** A loop whose body always returns and appends [k] results appends
    [k] results per element. *)
Lemma for_each_appends_exactly {A} (xs : list A) (body : A -> M unit) (k : nat) :
  (forall x s, exists new,
      fst (body x s) = Ret tt /\
      results (snd (body x s)) = results s ++ new /\ length new = k) ->
  forall s, exists new,
    fst (for_each xs body s) = Ret tt /\
    results (snd (for_each xs body s)) = results s ++ new /\
    length new = k * length xs.
Proof.
  intros Hb. induction xs as [|x xs IH]; intros s; simpl.
  - exists []. rewrite app_nil_r. cbn [length]. repeat split; lia.
  - unfold bind. destruct (Hb x s) as (n1 & Hr & Hres & Hlen).
    destruct (body x s) as [[[]|e] s1]; simpl in *; [|discriminate].
    destruct (IH s1) as (n2 & Hr2 & Hres2 & Hlen2).
    exists (n1 ++ n2). rewrite Hres2, Hres, <- app_assoc, length_app.
    cbn [length]. repeat split; auto; lia.
Qed.

Lemma probe_check_steps (ascent : Value) (prop_name method_name : string)
    (args : list Value) (s : State) :
  let w1 := snd (py_call ascent "is_property_available" [VStr prop_name] (world s)) in
  let w2 := snd (py_call ascent "get_unavailable_reason" [VStr prop_name] w1) in
  let w3 := snd (py_call ascent method_name args w2) in
  exists st1 d1 st2 d2 st3 d3,
    probe_check ascent (prop_name, method_name, args) s =
      (Ret tt,
       mkState w3
         (results s ++
            [ mkCheckResult ("ascent.is_property_available(" +:+ prop_name +:+ ")") st1 d1;
              mkCheckResult ("ascent.get_unavailable_reason(" +:+ prop_name +:+ ")") st2 d2;
              mkCheckResult ("ascent." +:+ method_name) st3 d3 ])
         (stdout s)).
Proof.
  intros w1 w2 w3. unfold probe_check, bind at 1.
  destruct (safe_read_appends_one
              ("ascent.is_property_available(" +:+ prop_name +:+ ")")
              (py_call ascent "is_property_available" [VStr prop_name]) s)
    as (v1 & st1 & d1 & ->). fold w1.
  unfold bind at 1.
  destruct (safe_read_appends_one
              ("ascent.get_unavailable_reason(" +:+ prop_name +:+ ")")
              (py_call ascent "get_unavailable_reason" [VStr prop_name])
              (recorded s w1 (mkCheckResult
                 ("ascent.is_property_available(" +:+ prop_name +:+ ")") st1 d1)))
    as (v2 & st2 & d2 & ->). cbn [world recorded]. fold w2.
  unfold bind at 1.
  match goal with
  | |- context [safe_read ?n ?f ?st] =>
      destruct (safe_read_appends_one n f st) as (v3 & st3 & d3 & ->)
  end.
  cbn [world recorded]. fold w3.
  exists st1, d1, st2, d2, st3, d3. unfold ret, recorded. cbn [results stdout].
  now rewrite <- !app_assoc.
Qed.

(** X6: one check of the ascent walk makes its three calls whatever the
    earlier ones return or raise, and appends exactly three results, named
    after the availability query, the reason query and the method; the
    whole walk appends one result when the ascent autopilot is absent and
    one plus three per check when it is present. *)
Theorem ascent_walk_probes (mj : Value) (s : State) :
  (forall ascent prop_name method_name args s0,
      let w1 := snd (py_call ascent "is_property_available" [VStr prop_name] (world s0)) in
      let w2 := snd (py_call ascent "get_unavailable_reason" [VStr prop_name] w1) in
      let w3 := snd (py_call ascent method_name args w2) in
      exists st1 d1 st2 d2 st3 d3,
        probe_check ascent (prop_name, method_name, args) s0 =
          (Ret tt,
           mkState w3
             (results s0 ++
                [ mkCheckResult ("ascent.is_property_available(" +:+ prop_name +:+ ")") st1 d1;
                  mkCheckResult ("ascent.get_unavailable_reason(" +:+ prop_name +:+ ")") st2 d2;
                  mkCheckResult ("ascent." +:+ method_name) st3 d3 ])
             (stdout s0))) /\
  (exists new,
      fst (probe_ascent_compat mj s) = Ret tt /\
      results (snd (probe_ascent_compat mj s)) = results s ++ new /\
      length new =
        match fst (safe_read "module.ascent_autopilot" (py_getattr mj "ascent_autopilot") s) with
        | Ret VNone => 1
        | _ => 1 + 3 * length checks
        end).
Proof.
  split; [intros; apply probe_check_steps|].
  unfold probe_ascent_compat, bind.
  destruct (safe_read_appends_one "module.ascent_autopilot"
              (py_getattr mj "ascent_autopilot") s) as (v & st & d & ->).
  cbn [fst]. destruct (is_None v) eqn:Hn.
  - destruct v; try discriminate. exists [mkCheckResult "module.ascent_autopilot" st d].
    repeat split.
  - destruct (for_each_appends_exactly checks (probe_check v) 3) with
      (s := recorded s (snd (py_getattr mj "ascent_autopilot" (world s)))
              (mkCheckResult "module.ascent_autopilot" st d))
      as (new & Hr & Hres & Hlen).
    { intros [[p m] a] s0.
      destruct (probe_check_steps v p m a s0) as (st1 & d1 & st2 & d2 & st3 & d3 & ->).
      eexists. repeat split. }
    exists (mkCheckResult "module.ascent_autopilot" st d :: new).
    split; [exact Hr|]. split.
    + rewrite Hres. cbn [results recorded]. now rewrite <- app_assoc.
    + cbn [length]. rewrite Hlen. destruct v; try discriminate; lia.
Qed.

Lemma remove_nodes_stops (l1 l2 : list Value) (removed : nat) (s s' : State) (ex : Exn) :
  remove_nodes l1 removed s = (Raise ex, s') ->
  remove_nodes (l1 ++ l2) removed s = (Raise ex, s').
Proof.
  revert removed s. induction l1 as [|node l1 IH]; intros removed s; simpl.
  - discriminate.
  - unfold bind. destruct (remote (py_call node "remove" []) s) as [[v|e] s1].
    + apply IH.
    + auto.
Qed.


(** X8: a cleanup stops at the first removal that raises: the nodes after
    it are not touched, and nothing is recorded by the cleanup. *)
Theorem clear_nodes_stops_at_failure (l1 l2 : list Value) (removed : nat)
    (s s' : State) (ex : Exn) :
  remove_nodes l1 removed s = (Raise ex, s') ->
  remove_nodes (l1 ++ l2) removed s = (Raise ex, s') /\
  results s' = results s.
Proof.
  intros H. split; [now apply remove_nodes_stops|].
  pose proof (remove_nodes_keeps_ledger l1 removed s) as [Hr _].
  now rewrite H in Hr.
Qed.

(** X9: a failure of the node-generation call appends exactly one result,
    and its status is decided by the message alone: FAIL_CRASH when a crash
    marker occurs in it, EXPECTED_FAIL when none does and an
    expected-operation marker occurs in the lowered message, FAIL when
    neither does. *)
Theorem make_nodes_failure_classified (conn : Value) (op_name : string) (op : Value)
    (s : State) (ex : Exn) (w : World) :
  py_call op "make_nodes" [] (world s) = (Raise ex, w) ->
  exists st,
    probe_make_nodes conn op_name op s =
      (Ret tt, recorded s w (mkCheckResult ("op." +:+ op_name +:+ ".make_nodes") st (str ex))) /\
    (st = "FAIL_CRASH" <->
       exists marker, In marker CRASH_MARKERS /\ Substring marker (str ex)) /\
    (st = "EXPECTED_FAIL" <->
       (forall marker, In marker CRASH_MARKERS -> ~ Substring marker (str ex)) /\
       exists marker, In marker EXPECTED_OPERATION_MARKERS /\
                      Substring marker (lower (str ex))) /\
    (st = "FAIL" <->
       (forall marker, In marker CRASH_MARKERS -> ~ Substring marker (str ex)) /\
       (forall marker, In marker EXPECTED_OPERATION_MARKERS ->
                       ~ Substring marker (lower (str ex)))).
Proof.
  intros H. rewrite (make_nodes_raises _ _ _ _ _ _ H). unfold make_nodes_handler.
  destruct (has_crash_marker (str ex)) eqn:Hc.
  - pose proof (proj1 (has_crash_marker_spec _) Hc) as (m & Hin & Hsub).
    exists "FAIL_CRASH". split; [reflexivity|]. split; [|split].
    + split; eauto.
    + split; [discriminate|]. intros [Hno _]. destruct (Hno m Hin Hsub).
    + split; [discriminate|]. intros [Hno _]. destruct (Hno m Hin Hsub).
  - pose proof (proj1 (no_crash_marker_spec _) Hc) as Hno.
    destruct (is_expected_operation_error (str ex)) eqn:He.
    + pose proof (proj1 (is_expected_operation_error_spec _) He) as (m & Hin & Hsub).
      exists "EXPECTED_FAIL". split; [reflexivity|]. split; [|split].
      * split; [discriminate|]. intros (m' & Hin' & Hsub'). destruct (Hno m' Hin' Hsub').
      * split; eauto.
      * split; [discriminate|]. intros [_ Hne]. destruct (Hne m Hin Hsub).
    + assert (Hne : forall m, In m EXPECTED_OPERATION_MARKERS ->
                              ~ Substring m (lower (str ex))).
      { intros m Hin Hsub.
        assert (is_expected_operation_error (str ex) = true)
          by (apply is_expected_operation_error_spec; eauto).
        congruence. }
      exists "FAIL". split; [reflexivity|]. split; [|split].
      * split; [discriminate|]. intros (m' & Hin' & Hsub'). destruct (Hno m' Hin' Hsub').
      * split; [discriminate|]. intros [_ (m & Hin & Hsub)]. destruct (Hne m Hin Hsub).
      * split; auto.
Qed.

(** X10: when the node-generation call returns a value that has no
    length, the probe records no PASS and does not start the cleanup: the
    error of [len] is classified like a failure of the call itself and is
    the one result appended. *)
Theorem make_nodes_unsized (conn : Value) (op_name : string) (op : Value)
    (s : State) (nodes : Value) (w : World) (ex : Exn) :
  py_call op "make_nodes" [] (world s) = (Ret nodes, w) ->
  len nodes = Raise ex ->
  probe_make_nodes conn op_name op s =
    (Ret tt,
     recorded s w
       (mkCheckResult ("op." +:+ op_name +:+ ".make_nodes")
          (if has_crash_marker (str ex) then "FAIL_CRASH"
           else if is_expected_operation_error (str ex) then "EXPECTED_FAIL"
           else "FAIL")
          (str ex))).
Proof.
  intros Hm Hl. unfold probe_make_nodes, try_except, bind at 1, remote. rewrite Hm.
  unfold bind at 1, of_res. rewrite Hl. unfold make_nodes_handler, append.
  destruct (has_crash_marker (str ex)); [|destruct (is_expected_operation_error (str ex))];
    reflexivity.
Qed.

End Details.

(** ** Where results come from *)

Section Origins.
Context `{Sf : Surface}.
Variable P : CheckResult -> Prop.

Lemma ap_ret {A} (a : A) : appends P (ret a).
Proof. intros s. exists []. now rewrite app_nil_r. Qed.

Lemma ap_of_res {A} (r : Res A) : appends P (of_res r).
Proof. intros s. exists []. now rewrite app_nil_r. Qed.

Lemma ap_remote {A} (r : SE World A) : appends P (remote r).
Proof.
  intros s. unfold remote. destruct (r (world s)). exists []. now rewrite app_nil_r.
Qed.

Lemma ap_append (r : CheckResult) : P r -> appends P (append r).
Proof. intros H s. exists [r]. split; [reflexivity | now constructor]. Qed.

Lemma ap_bind {A B} (m : M A) (k : A -> M B) :
  appends P m -> (forall a, appends P (k a)) -> appends P (bind m k).
Proof.
  intros Hm Hk s. unfold bind. destruct (Hm s) as (n1 & E1 & F1).
  destruct (m s) as [[a|e] s1]; simpl in *; [|now exists n1].
  destruct (Hk a s1) as (n2 & E2 & F2). exists (n1 ++ n2).
  rewrite E2, E1, <- app_assoc. split; [reflexivity | now apply Forall_app].
Qed.

Lemma ap_try_except {A} (body : M A) (handler : Exn -> M A) :
  appends P body -> (forall e, appends P (handler e)) ->
  appends P (try_except body handler).
Proof.
  intros Hb Hh s. unfold try_except. destruct (Hb s) as (n1 & E1 & F1).
  destruct (body s) as [[a|e] s1]; simpl in *; [now exists n1|].
  destruct (Hh e s1) as (n2 & E2 & F2). exists (n1 ++ n2).
  rewrite E2, E1, <- app_assoc. split; [reflexivity | now apply Forall_app].
Qed.

Lemma ap_for_each {A} (xs : list A) (body : A -> M unit) :
  (forall x, In x xs -> appends P (body x)) -> appends P (for_each xs body).
Proof.
  induction xs as [|x xs IH]; intros Hb; simpl.
  - apply ap_ret.
  - apply ap_bind; [apply Hb; now left | intros _; apply IH].
    intros y Hy. apply Hb. now right.
Qed.

Lemma ap_safe_read (name : string) (fn : SE World Value) :
  (forall st d, In st ["PASS"; "FAIL_CRASH"; "FAIL"] -> P (mkCheckResult name st d)) ->
  appends P (safe_read name fn).
Proof.
  intros H. unfold safe_read. apply ap_try_except.
  - apply ap_bind; [apply ap_remote|]. intros v.
    apply ap_bind; [|intros _; apply ap_ret].
    apply ap_append, H. simpl; auto.
  - intros e. apply ap_bind; [|intros _; apply ap_ret].
    apply ap_append, H. destruct (has_crash_marker (str e)); simpl; auto.
Qed.

Lemma ap_safe_attr_names (owner_name : string) (obj : Value) (attr : string)
    (exposed : gset string) (names : list string) :
  (forall n st d,
      In n names ->
      In st ["PASS"; "FAIL_CRASH"; "FAIL"] ->
      P (mkCheckResult (owner_name +:+ "." +:+ n) st d)) ->
  P (mkCheckResult (owner_name +:+ "." +:+ attr) "SKIP"
       "attribute not exposed by this client/service build") ->
  appends P (safe_attr_names owner_name obj attr exposed names).
Proof.
  intros Hread Hskip. induction names as [|n names IH]; simpl.
  - apply ap_bind; [now apply ap_append | intros _; apply ap_ret].
  - destruct (bool_decide (n ∈ exposed)).
    + apply ap_safe_read. intros st d Hst. apply Hread; [now left | exact Hst].
    + apply IH. intros n' st d Hn'. apply Hread. now right.
Qed.

Lemma ap_safe_attr (owner_name : string) (obj : Value) (attr : string)
    (aliases : option (list string)) :
  (forall n st d,
      In n ([attr] ++ default [] aliases) ->
      In st ["PASS"; "FAIL_CRASH"; "FAIL"] ->
      P (mkCheckResult (owner_name +:+ "." +:+ n) st d)) ->
  P (mkCheckResult (owner_name +:+ "." +:+ attr) "SKIP"
       "attribute not exposed by this client/service build") ->
  appends P (safe_attr owner_name obj attr aliases).
Proof.
  intros Hread Hskip. unfold safe_attr. apply ap_bind.
  - apply ap_try_except.
    + apply ap_bind; [apply ap_remote | intros ds; apply ap_ret].
    + intros e. apply ap_bind; [|intros _; apply ap_ret].
      apply ap_append, Hread; simpl; auto.
  - intros [v|exposed]; [apply ap_ret|]. now apply ap_safe_attr_names.
Qed.

End Origins.

Section SoftStatuses.
Context `{Sf : Surface}.
Variable make_nodes : bool.

Lemma hard_status_origin (n st d : string) :
  In st ["PASS"; "FAIL_CRASH"; "FAIL"] ->
  soft_origin make_nodes (mkCheckResult n st d).
Proof.
  intros [<-|[<-|[<-|[]]]]; split; simpl; discriminate.
Qed.

Lemma skip_origin (n : string) :
  soft_origin make_nodes
    (mkCheckResult n "SKIP" "attribute not exposed by this client/service build").
Proof. split; simpl; [discriminate | reflexivity]. Qed.

Lemma safe_read_origin (name : string) (fn : SE World Value) :
  appends (soft_origin make_nodes) (safe_read name fn).
Proof. apply ap_safe_read. intros. now apply hard_status_origin. Qed.

Lemma safe_attr_origin (owner_name : string) (obj : Value) (attr : string)
    (aliases : option (list string)) :
  appends (soft_origin make_nodes) (safe_attr owner_name obj attr aliases).
Proof.
  apply ap_safe_attr; [intros; now apply hard_status_origin | apply skip_origin].
Qed.

Lemma clear_nodes_origin (conn : Value) :
  appends (soft_origin make_nodes) (clear_nodes conn).
Proof.
  unfold clear_nodes.
  apply ap_bind; [apply ap_remote | intros vessel].
  apply ap_bind; [apply ap_remote | intros nodes].
  apply ap_bind; [apply ap_of_res | intros l].
  apply ap_bind.
  - generalize 0. induction l as [|node l IH]; intros k; simpl.
    + apply ap_ret.
    + apply ap_bind; [apply ap_remote | intros _; apply IH].
  - intros removed. apply ap_append, hard_status_origin. simpl; auto.
Qed.

Lemma probe_make_nodes_origin (conn : Value) (op_name : string) (op : Value) :
  make_nodes = true ->
  In op_name operations ->
  appends (soft_origin make_nodes) (probe_make_nodes conn op_name op).
Proof.
  intros Hmk Hin. unfold probe_make_nodes. apply ap_try_except.
  - apply ap_bind; [apply ap_remote | intros nodes].
    apply ap_bind; [apply ap_of_res | intros count].
    apply ap_bind; [|intros _; apply clear_nodes_origin].
    apply ap_append, hard_status_origin. simpl; auto.
  - intros ex. unfold make_nodes_handler.
    destruct (has_crash_marker (str ex));
      [|destruct (is_expected_operation_error (str ex))]; apply ap_append.
    + apply hard_status_origin. simpl; auto.
    + split; simpl; [|discriminate]. intros _. split; [exact Hmk|]. now exists op_name.
    + apply hard_status_origin. simpl; auto.
Qed.

Lemma probe_operation_origin (conn planner : Value) (op_name : string) :
  In op_name operations ->
  appends (soft_origin make_nodes) (probe_operation conn planner make_nodes op_name).
Proof.
  intros Hin. unfold probe_operation.
  apply ap_bind; [apply safe_read_origin | intros op].
  destruct (is_None op); [apply ap_ret|].
  apply ap_bind; [apply safe_read_origin | intros _].
  apply ap_bind; [apply safe_attr_origin | intros ts].
  apply ap_bind.
  - destruct (negb (is_None ts)); [|apply ap_ret].
    apply ap_bind; [apply safe_attr_origin | intros _].
    apply ap_bind; [apply safe_attr_origin | intros _; apply ap_ret].
  - intros _. destruct (negb make_nodes) eqn:Hn; [apply ap_ret|].
    apply probe_make_nodes_origin; [now apply negb_false_iff | exact Hin].
Qed.

(** X11: in the ledger of a run, EXPECTED_FAIL is only ever the status of
    a node-generation result of a catalog operation, and only when node
    generation is on; SKIP is only ever recorded by the Capability Prober,
    with its fixed detail. Every other result is PASS, FAIL or FAIL_CRASH
    by the validity of the ledger. *)
Theorem soft_statuses_origin (conn : Value) (s : State) :
  exists new,
    results (snd (probing conn make_nodes s)) = results s ++ new /\
    Forall (soft_origin make_nodes) new.
Proof.
  revert s. change (appends (soft_origin make_nodes) (probing conn make_nodes)).
  unfold probing. apply ap_bind.
  - unfold probe_basic_service.
    apply ap_bind; [apply safe_read_origin | intros _].
    apply ap_bind; [apply safe_read_origin | intros mj].
    destruct (is_None mj); [apply ap_ret|].
    apply ap_bind; [apply safe_read_origin | intros ready].
    apply ap_bind; [|intros _; apply ap_ret].
    destruct (is_False ready); [|apply ap_ret].
    apply ap_append, hard_status_origin. simpl; auto.
  - intros mj. destruct (negb (is_None mj)); [|apply ap_ret].
    apply ap_bind; [|intros _; apply ap_bind; [|intros _]].
    + unfold probe_modules, probe_modules_of. apply ap_for_each.
      intros [module_name props] _. unfold probe_module.
      apply ap_bind; [apply safe_read_origin | intros module].
      destruct (is_None module); [apply ap_ret|].
      apply ap_for_each. intros prop _.
      apply ap_bind; [apply safe_attr_origin | intros _; apply ap_ret].
    + unfold probe_ascent_compat.
      apply ap_bind; [apply safe_read_origin | intros ascent].
      destruct (is_None ascent); [apply ap_ret|].
      apply ap_for_each. intros [[p m] a] _. unfold probe_check.
      repeat (apply ap_bind; [apply safe_read_origin | intros _]). apply ap_ret.
    + unfold probe_operations.
      apply ap_bind; [apply safe_read_origin | intros planner].
      destruct (is_None planner); [apply ap_ret|].
      apply ap_for_each. intros op_name Hin. now apply probe_operation_origin.
Qed.

End SoftStatuses.

Section ModuleWalk.
Context `{Sf : Surface}.

Lemma probe_module_count (mj : Value) (module_name : string) (props : list string)
    (s : State) :
  exists new,
    fst (probe_module mj (module_name, props) s) = Ret tt /\
    results (snd (probe_module mj (module_name, props) s)) = results s ++ new /\
    1 <= length new <= 1 + length props.
Proof.
  destruct (safe_read_appends_one ("module." +:+ module_name)
              (py_getattr mj module_name) s) as (v & st & d & Hf).
  set (s1 := recorded s _ _) in Hf.
  assert (E : probe_module mj (module_name, props) s =
              (if is_None v then ret tt
               else for_each props
                      (fun prop => safe_attr module_name v prop None ;; ret tt)) s1).
  { unfold probe_module, bind at 1. now rewrite Hf. }
  rewrite E. clear E Hf. destruct (is_None v).
  - exists [mkCheckResult ("module." +:+ module_name) st d]. cbn. repeat split; lia.
  - 
    destruct (member_probes_count module_name v props s1) as (news & Hres & Hlen).
    assert (Hc : contained (for_each props
                   (fun prop => safe_attr module_name v prop None ;; ret tt))).
    { apply ct_for_each. intros prop. apply ct_bind; [apply safe_attr_contained|].
      intros _. apply ct_ret. }
    destruct (Hc s1) as [[] Hret].
    exists (mkCheckResult ("module." +:+ module_name) st d :: news).
    split; [exact Hret|]. split.
    + rewrite Hres. unfold s1. cbn [results recorded]. now rewrite <- app_assoc.
    + cbn [length]. lia.
Qed.

Lemma probe_modules_count (catalog : list (string * list string)) (mj : Value) (s : State) :
  exists new,
    fst (probe_modules_of catalog mj s) = Ret tt /\
    results (snd (probe_modules_of catalog mj s)) = results s ++ new /\
    length catalog <= length new <= length catalog + length (concat (map snd catalog)).
Proof.
  unfold probe_modules_of. revert s.
  induction catalog as [|[module_name props] catalog IH]; intros s.
  - exists []. rewrite app_nil_r. cbn. repeat split; lia.
  - destruct (probe_module_count mj module_name props s) as (n1 & Hr & Hres & Hlen).
    destruct (probe_module mj (module_name, props) s) as [r1 s1] eqn:Epm.
    cbn [fst snd] in Hr, Hres. subst r1.
    assert (E : for_each ((module_name, props) :: catalog) (probe_module mj) s =
                for_each catalog (probe_module mj) s1).
    { cbn [for_each]. unfold bind. now rewrite Epm. }
    rewrite E. destruct (IH s1) as (n2 & Hr2 & Hres2 & Hlen2).
    exists (n1 ++ n2). rewrite Hres2, Hres, <- app_assoc.
    cbn [map concat length snd]. rewrite !length_app.
    repeat split; auto; lia.
Qed.

Lemma probe_modules_named (catalog : list (string * list string)) (mj : Value) :
  appends (module_result catalog) (probe_modules_of catalog mj).
Proof.
  unfold probe_modules_of. apply ap_for_each. intros [module_name props] Hin.
  unfold probe_module.
  apply ap_bind.
  - apply ap_safe_read. intros st d _. exists module_name, props. split; [exact Hin|].
    now left.
  - intros module. destruct (is_None module); [apply ap_ret|].
    apply ap_for_each. intros prop Hp.
    apply ap_bind; [|intros _; apply ap_ret].
    apply ap_safe_attr.
    + intros n st d [<-|[]] _. exists module_name, props. split; [exact Hin|].
      right. now exists prop.
    + exists module_name, props. split; [exact Hin|]. right. now exists prop.
Qed.

(** X12: the module/property walk over a catalog never raises; every
    result it appends is the fetch of a catalog entry, named module.<entry>,
    or the probe of one of that entry's members, named <entry>.<member>;
    and it appends at least one result per entry and at most one more per
    listed member. *)
Theorem module_walk_results (catalog : list (string * list string)) (mj : Value)
    (s : State) :
  exists new,
    probe_modules_of catalog mj s =
      (Ret tt, mkState (world (snd (probe_modules_of catalog mj s)))
                 (results s ++ new) (stdout s)) /\
    Forall (module_result catalog) new /\
    length catalog <= length new <= length catalog + length (concat (map snd catalog)).
Proof.
  destruct (probe_modules_count catalog mj s) as (new & Hr & Hres & Hlen).
  destruct (probe_modules_named catalog mj s) as (new' & Hres' & Hnamed).
  assert (new' = new) by (rewrite Hres in Hres'; now apply app_inv_head in Hres').
  subst new'. exists new. split; [|split; assumption].
  assert (Ho : stdout (snd (probe_modules_of catalog mj s)) = stdout s).
  { assert (Ha : append_only (probe_modules_of catalog mj)).
    { unfold probe_modules_of. apply ao_for_each. intros x.
      apply probe_module_append_only. }
    apply Ha. }
  destruct (probe_modules_of catalog mj s) as [r [w l out]]. simpl in *.
  now subst.
Qed.

End ModuleWalk.

(** ** The accesses a run makes to the remote surface *)

Section Preserved.
Context {S : Type} (Q : S -> Prop).

Lemma pv_ret {A} (a : A) : preserves Q (ret a).
Proof. intros s H. exact H. Qed.

Lemma pv_of_res {A} (r : Res A) : preserves Q (of_res r).
Proof. intros s H. exact H. Qed.

Lemma pv_bind {A B} (m : SE S A) (k : A -> SE S B) :
  preserves Q m -> (forall a, preserves Q (k a)) -> preserves Q (bind m k).
Proof.
  intros Hm Hk s H. unfold bind. specialize (Hm s H).
  destruct (m s) as [[a|e] s1]; simpl in *; [now apply Hk | assumption].
Qed.

Lemma pv_try_except {A} (body : SE S A) (handler : Exn -> SE S A) :
  preserves Q body -> (forall e, preserves Q (handler e)) ->
  preserves Q (try_except body handler).
Proof.
  intros Hb Hh s H. unfold try_except. specialize (Hb s H).
  destruct (body s) as [[a|e] s1]; simpl in *; [assumption | now apply Hh].
Qed.

Lemma pv_for_each {A} (xs : list A) (body : A -> SE S unit) :
  (forall x, In x xs -> preserves Q (body x)) -> preserves Q (for_each xs body).
Proof.
  induction xs as [|x xs IH]; intros Hb; simpl.
  - apply pv_ret.
  - apply pv_bind; [apply Hb; now left | intros _; apply IH].
    intros y Hy. apply Hb. now right.
Qed.

End Preserved.

Section Footprint.
Context `{Sf : Surface}.
Variable Q : World -> Prop.
Variable okc : string -> Prop.
Hypothesis Hget : forall o n, preserves Q (py_getattr o n).
Hypothesis Hdir : forall o, preserves Q (py_dir o).
Hypothesis Hcall : forall o m args, okc m -> preserves Q (py_call o m args).

Local Abbreviation QS := (fun s : State => Q (world s)).

Lemma pv_remote {A} (r : SE World A) : preserves Q r -> preserves QS (remote r).
Proof.
  intros Hr s H. unfold remote. specialize (Hr (world s) H).
  now destruct (r (world s)).
Qed.

Lemma pv_append (r : CheckResult) : preserves QS (append r).
Proof. intros s H. exact H. Qed.

Lemma pv_safe_read (name : string) (fn : SE World Value) :
  preserves Q fn -> preserves QS (safe_read name fn).
Proof.
  intros Hfn. unfold safe_read. apply pv_try_except.
  - apply pv_bind; [now apply pv_remote | intros v].
    apply pv_bind; [apply pv_append | intros _; apply pv_ret].
  - intros e. apply pv_bind; [apply pv_append | intros _; apply pv_ret].
Qed.

Lemma pv_safe_attr (owner_name : string) (obj : Value) (attr : string)
    (aliases : option (list string)) :
  preserves QS (safe_attr owner_name obj attr aliases).
Proof.
  unfold safe_attr. apply pv_bind.
  - apply pv_try_except.
    + apply pv_bind; [apply pv_remote, Hdir | intros ds; apply pv_ret].
    + intros e. apply pv_bind; [apply pv_append | intros _; apply pv_ret].
  - intros [v|exposed]; [apply pv_ret|].
    induction ([attr] ++ default [] aliases) as [|n names IH]; simpl.
    + apply pv_bind; [apply pv_append | intros _; apply pv_ret].
    + destruct (bool_decide (n ∈ exposed)); [apply pv_safe_read, Hget | exact IH].
Qed.

Lemma pv_probe_basic_service (conn : Value) :
  okc "get_status" -> preserves QS (probe_basic_service conn).
Proof.
  intros Hs. unfold probe_basic_service.
  apply pv_bind; [|intros _].
  { apply pv_safe_read. unfold read_version.
    apply pv_bind; [apply Hget | intros krpc].
    apply pv_bind; [now apply Hcall | intros st; apply Hget]. }
  apply pv_bind; [apply pv_safe_read, Hget | intros mj].
  destruct (is_None mj); [apply pv_ret|].
  apply pv_bind; [apply pv_safe_read, Hget | intros ready].
  apply pv_bind; [|intros _; apply pv_ret].
  destruct (is_False ready); [apply pv_append | apply pv_ret].
Qed.

Lemma pv_probe_modules (mj : Value) : preserves QS (probe_modules mj).
Proof.
  unfold probe_modules, probe_modules_of. apply pv_for_each.
  intros [module_name props] _. unfold probe_module.
  apply pv_bind; [apply pv_safe_read, Hget | intros module].
  destruct (is_None module); [apply pv_ret|].
  apply pv_for_each. intros prop _.
  apply pv_bind; [apply pv_safe_attr | intros _; apply pv_ret].
Qed.

Lemma pv_probe_ascent_compat (mj : Value) :
  (forall m, In m probe_calls -> okc m) -> preserves QS (probe_ascent_compat mj).
Proof.
  intros Hok. unfold probe_ascent_compat.
  apply pv_bind; [apply pv_safe_read, Hget | intros ascent].
  destruct (is_None ascent); [apply pv_ret|].
  apply pv_for_each. intros [[p m] a] Hin. unfold probe_check.
  apply pv_bind; [|intros _].
  { apply pv_safe_read, Hcall, Hok. unfold probe_calls. simpl. auto. }
  apply pv_bind; [|intros _].
  { apply pv_safe_read, Hcall, Hok. unfold probe_calls. simpl. auto. }
  apply pv_bind; [|intros _; apply pv_ret].
  apply pv_safe_read, Hcall, Hok. unfold probe_calls.
  apply in_or_app. right.
  apply (in_map (fun check : string * string * list Value => snd (fst check))) in Hin.
  exact Hin.
Qed.

Lemma pv_clear_nodes (conn : Value) : okc "remove" -> preserves QS (clear_nodes conn).
Proof.
  intros Hrm. unfold clear_nodes.
  apply pv_bind; [|intros vessel].
  { apply pv_remote. apply pv_bind; [apply Hget | intros; apply Hget]. }
  apply pv_bind; [|intros nodes].
  { apply pv_remote. apply pv_bind; [apply Hget | intros; apply Hget]. }
  apply pv_bind; [apply pv_of_res | intros l].
  apply pv_bind; [|intros removed; apply pv_append].
  generalize 0. induction l as [|node l IH]; intros k; simpl.
  - apply pv_ret.
  - apply pv_bind; [now apply pv_remote, Hcall | intros _; apply IH].
Qed.

Lemma pv_probe_operations (conn mj : Value) (make_nodes : bool) :
  (make_nodes = true -> okc "make_nodes" /\ okc "remove") ->
  preserves QS (probe_operations conn mj make_nodes).
Proof.
  intros Hmk. unfold probe_operations.
  apply pv_bind; [apply pv_safe_read, Hget | intros planner].
  destruct (is_None planner); [apply pv_ret|].
  apply pv_for_each. intros op_name _. unfold probe_operation.
  apply pv_bind; [apply pv_safe_read, Hget | intros op].
  destruct (is_None op); [apply pv_ret|].
  apply pv_bind; [apply pv_safe_read, Hget | intros _].
  apply pv_bind; [apply pv_safe_attr | intros ts].
  apply pv_bind.
  - destruct (negb (is_None ts)); [|apply pv_ret].
    apply pv_bind; [apply pv_safe_attr | intros _].
    apply pv_bind; [apply pv_safe_attr | intros _; apply pv_ret].
  - intros _. destruct (negb make_nodes) eqn:Hn; [apply pv_ret|].
    destruct (Hmk (proj1 (negb_false_iff _) Hn)) as [Hmake Hrm].
    unfold probe_make_nodes. apply pv_try_except.
    + apply pv_bind; [now apply pv_remote, Hcall | intros nodes].
      apply pv_bind; [apply pv_of_res | intros count].
      apply pv_bind; [apply pv_append | intros _; now apply pv_clear_nodes].
    + intros ex. unfold make_nodes_handler.
      destruct (has_crash_marker (str ex));
        [|destruct (is_expected_operation_error (str ex))]; apply pv_append.
Qed.

Lemma pv_probing (conn : Value) (make_nodes : bool) :
  (forall m, In m (calls_made make_nodes) -> okc m) ->
  preserves QS (probing conn make_nodes).
Proof.
  intros Hok.
  assert (Hp : forall m, In m probe_calls -> okc m).
  { intros m Hm. apply Hok. unfold calls_made. apply in_or_app. now left. }
  unfold probing. apply pv_bind.
  - apply pv_probe_basic_service, Hp. unfold probe_calls. simpl. auto.
  - intros mj. destruct (negb (is_None mj)); [|apply pv_ret].
    apply pv_bind; [apply pv_probe_modules | intros _].
    apply pv_bind; [now apply pv_probe_ascent_compat | intros _].
    apply pv_probe_operations. intros ->.
    split; apply Hok; unfold calls_made; apply in_or_app; right; simpl; auto.
Qed.

End Footprint.

Section Traced.
Variable Sf0 : Surface.
Variable ok : Access -> Prop.
Variable t0 : list Access.

Local Abbreviation Qt := (fun wt : @World (traced Sf0) => only ok t0 (snd wt)).

Lemma only_snoc (t : list Access) (a : Access) :
  ok a -> only ok t0 t -> only ok t0 (t ++ [a]).
Proof.
  intros Ha (t1 & -> & Ht1). exists (t1 ++ [a]).
  split; [now rewrite app_assoc | apply Forall_app; split; [exact Ht1 | now constructor]].
Qed.

Lemma traced_getattr (o : Value) (n : string) :
  ok (Get n) -> preserves Qt (@py_getattr (traced Sf0) o n).
Proof.
  intros Ha [w t] H. cbn. destruct (@py_getattr Sf0 o n w). cbn. now apply only_snoc.
Qed.

Lemma traced_dir (o : Value) :
  ok Dir -> preserves Qt (@py_dir (traced Sf0) o).
Proof.
  intros Ha [w t] H. cbn. destruct (@py_dir Sf0 o w). cbn. now apply only_snoc.
Qed.

Lemma traced_call (o : Value) (m : string) (args : list Value) :
  ok (Call m) -> preserves Qt (@py_call (traced Sf0) o m args).
Proof.
  intros Ha [w t] H. cbn. destruct (@py_call Sf0 o m args w). cbn. now apply only_snoc.
Qed.

End Traced.

Section Accesses.
Variable Sf0 : Surface.

(** The accesses probing adds to the list are accesses it may make. *)
Lemma probing_accesses (conn : Value) (make_nodes : bool) (s : @State (traced Sf0)) :
  only (probe_access make_nodes) (snd (world s))
    (snd (world (snd (probing (Sf := traced Sf0) conn make_nodes s)))).
Proof.
  apply (pv_probing (Sf := traced Sf0)
           (fun wt => only (probe_access make_nodes) (snd (world s)) (snd wt))
           (fun m => probe_access make_nodes (Call m))).
  - intros o n. now apply traced_getattr.
  - intros o. now apply traced_dir.
  - intros o m args Hm. now apply traced_call.
  - intros m Hm. exact Hm.
  - exists []. now rewrite app_nil_r.
Qed.

Lemma no_node_calls (t : list Access) :
  Forall (probe_access false) t ->
  ~ In (Call "make_nodes") t /\ ~ In (Call "remove") t.
Proof.
  intros H. rewrite List.Forall_forall in H.
  split; intros Hin; specialize (H _ Hin); vm_compute in H;
    repeat (destruct H as [H|H]; [discriminate|]); exact H.
Qed.

(** X13: the accesses the probing phase makes are attribute reads, member
    enumerations and calls of the methods in [calls_made]; it never
    connects or closes, and with node generation off it never calls
    [make_nodes] or [remove]. *)
Theorem probing_footprint (conn : Value) (make_nodes : bool) (s : @State (traced Sf0)) :
  exists t,
    snd (world (snd (probing (Sf := traced Sf0) conn make_nodes s))) = snd (world s) ++ t /\
    Forall (probe_access make_nodes) t /\
    ~ In Connect t /\ ~ In Close t /\
    (make_nodes = false -> ~ In (Call "make_nodes") t /\ ~ In (Call "remove") t).
Proof.
  destruct (probing_accesses conn make_nodes s) as (t & Ht & Hok).
  exists t. split; [exact Ht|]. split; [exact Hok|].
  pose proof (proj1 (List.Forall_forall _ _) Hok) as Hall.
  split; [|split].
  - intros Hin. exact (Hall _ Hin).
  - intros Hin. exact (Hall _ Hin).
  - intros ->. now apply no_node_calls.
Qed.

(** X14: a run connects first and once; when the connection fails that
    is its only access; otherwise the accesses of the probes follow and the
    closing of the connection is the last access, made once. *)
Theorem main_accesses (args : Args) (w : @World Sf0) :
  let t := snd (world (snd (main (Sf := traced Sf0) args (w, [])))) in
  match @krpc_connect Sf0 (arg_name args) (arg_address args) (arg_rpc_port args)
          (arg_stream_port args) w with
  | (Raise _, _) => t = [Connect]
  | (Ret _, _) =>
      exists t1,
        t = [Connect] ++ t1 ++ [Close] /\
        Forall (probe_access (arg_make_nodes args)) t1
  end.
Proof.
  intros t.
  destruct (@krpc_connect Sf0 (arg_name args) (arg_address args) (arg_rpc_port args)
              (arg_stream_port args) w) as [[conn|ex] w1] eqn:Hc.
  - assert (Hc' : @krpc_connect (traced Sf0) (arg_name args) (arg_address args)
                    (arg_rpc_port args) (arg_stream_port args) (w, []) =
                  (Ret conn, (w1, [Connect]))).
    { cbn. now rewrite Hc. }
    destruct (main_connected (Sf := traced Sf0) args _ _ conn Hc')
      as (s1 & Hp & _ & Hmain).
    pose proof (probing_accesses conn (arg_make_nodes args)
                  (mkState (Sf := traced Sf0) (w1, [Connect]) [] [])) as (t1 & Ht1 & Hok).
    rewrite Hp in Ht1. cbn [snd world] in Ht1.
    exists t1. split; [|exact Hok].
    subst t. rewrite Hmain, summarize_state. cbn [world snd]. cbn. now rewrite Ht1.
  - subst t. unfold main, main_body, bind, try_except, remote, print, ret.
    cbn. rewrite Hc. reflexivity.
Qed.

End Accesses.

(** ** The marker vocabularies *)

Section Markers.

Lemma string_app_assoc (a b c : string) : (a +:+ b) +:+ c = a +:+ b +:+ c.
Proof.
  induction a as [|x a IH]; [reflexivity|].
  change (String x ((a +:+ b) +:+ c) = String x (a +:+ b +:+ c)).
  f_equal. exact IH.
Qed.

Lemma lower_app (a b : string) : lower (a +:+ b) = lower a +:+ lower b.
Proof.
  induction a as [|x a IH]; [reflexivity|].
  change (String (lower_ascii x) (lower (a +:+ b)) =
          String (lower_ascii x) (lower a +:+ lower b)).
  f_equal. exact IH.
Qed.

Lemma substring_of_longer (a b s : string) :
  Substring (a +:+ b) s -> Substring a s.
Proof.
  intros (pre & post & ->). exists pre, (b +:+ post). now rewrite string_app_assoc.
Qed.

Lemma substring_wrapped (sub s pre post : string) :
  Substring sub s -> Substring sub (pre +:+ s +:+ post).
Proof.
  intros (p & q & ->). exists (pre +:+ p), (q +:+ post).
  now rewrite !string_app_assoc.
Qed.

(** X15: the marker "no maneuver parameters" never decides: a message is
    an expected-operation error exactly when its lowered text holds one of
    the seven markers before it. *)
Theorem longest_marker_redundant (message : string) :
  is_expected_operation_error message =
    any (fun marker => contains marker (lower message))
      [ "target"; "inclination"; "intercept"; "cannot"; "not allowed";
        "no transfer"; "no maneuver" ].
Proof.
  unfold is_expected_operation_error, EXPECTED_OPERATION_MARKERS, any.
  cbn [existsb].
  destruct (contains "no maneuver parameters" (lower message)) eqn:Hlong.
  - assert (Hshort : contains "no maneuver" (lower message) = true).
    { apply contains_spec.
      apply (substring_of_longer "no maneuver" " parameters").
      now apply contains_spec. }
    rewrite Hshort. now rewrite !orb_true_r.
  - reflexivity.
Qed.

(** X16: classification looks for markers anywhere in the text, so
    wrapping a message in more text keeps what was found: a message with a
    crash marker still has one, and an expected-operation error without
    crash marker inside stays recognised as expected-operation text. *)
Theorem markers_survive_wrapping (msg pre post : string) :
  (has_crash_marker msg = true ->
   has_crash_marker (pre +:+ msg +:+ post) = true) /\
  (is_expected_operation_error msg = true ->
   is_expected_operation_error (pre +:+ msg +:+ post) = true).
Proof.
  split.
  - rewrite !has_crash_marker_spec. intros (m & Hin & Hsub).
    exists m. split; [exact Hin | now apply substring_wrapped].
  - rewrite !is_expected_operation_error_spec. intros (m & Hin & Hsub).
    exists m. split; [exact Hin|]. rewrite !lower_app. now apply substring_wrapped.
Qed.

End Markers.

(** ** The further statements at work on the scripted surface *)

(** The output of a connected run against a service that reads as None. *)
Lemma main_report_witness :
  krpc_connect (Surface := Demo.scripted) "mechjeb-smoke" "127.0.0.1" 50000 50001
    Demo.no_service =
    (Ret (VObj "connect" 0), Demo.logged "connect" Demo.no_service) /\
  stdout (snd (main (Sf := Demo.scripted) (Demo.args false) Demo.no_service)) =
    [ "[PASS] krpc.version: <version>";
      "[PASS] service.mech_jeb: None";
      "";
      "Summary: total=2 fail=0 expected_fail=0 skipped=0" ].
Proof.
  split; [reflexivity|].
  rewrite (main_report (Sf := Demo.scripted) (Demo.args false) Demo.no_service
             _ _ eq_refl).
  reflexivity.
Defined.



(** The first removal fails: whatever follows in the list is not reached. *)
Lemma clear_nodes_stops_at_failure_witness :
  remove_nodes ([VObj "Node" 1] ++ [VObj "Node" 2; VObj "Node" 3]) 0
    (Demo.start Demo.cleanup_fails) =
    (Raise (Exception "Connection reset by peer"),
     mkState (Demo.logged "remove" Demo.cleanup_fails) [] []).
Proof.
  exact (proj1 (clear_nodes_stops_at_failure [VObj "Node" 1]
                  [VObj "Node" 2; VObj "Node" 3] 0
                  (Demo.start Demo.cleanup_fails) _ _ eq_refl)).
Defined.

(** A refused node generation is classified as EXPECTED_FAIL. *)
Lemma make_nodes_failure_classified_witness :
  exists st,
    probe_make_nodes Demo.conn "operation_transfer" Demo.op (Demo.start Demo.no_window) =
      (Ret tt,
       mkState (Demo.logged "make_nodes" Demo.no_window)
         [ mkCheckResult "op.operation_transfer.make_nodes" st
             "No transfer window currently available" ] []) /\
    (st = "FAIL_CRASH" <->
       exists marker, In marker CRASH_MARKERS /\
                      Substring marker "No transfer window currently available").
Proof.
  destruct (make_nodes_failure_classified Demo.conn "operation_transfer" Demo.op
              (Demo.start Demo.no_window)
              (Exception "No transfer window currently available") _ eq_refl)
    as (st & E & Hc & _).
  exists st. split; [exact E | exact Hc].
Defined.

(** Node generation returns None: one FAIL with the error of [len]. *)
Lemma make_nodes_unsized_witness :
  probe_make_nodes Demo.conn "operation_transfer" Demo.op (Demo.start Demo.unsized_nodes) =
    (Ret tt,
     mkState (Demo.logged "make_nodes" Demo.unsized_nodes)
       [ mkCheckResult "op.operation_transfer.make_nodes" "FAIL"
           "object of type 'NoneType' has no len()" ] []).
Proof.
  exact (make_nodes_unsized Demo.conn "operation_transfer" Demo.op
           (Demo.start Demo.unsized_nodes) VNone _
           (Exception "object of type 'NoneType' has no len()") eq_refl eq_refl).
Defined.

(** A crash message wrapped in the text of an outer error keeps its
    crash marker. *)
Lemma markers_survive_wrapping_witness :
  has_crash_marker "MissingMethodException: Method not found" = true /\
  has_crash_marker
    ("RPCError: " +:+ "MissingMethodException: Method not found" +:+ " (server)") = true.
Proof.
  split; [reflexivity|].
  exact (proj1 (markers_survive_wrapping "MissingMethodException: Method not found"
                  "RPCError: " " (server)") eq_refl).
Defined.

(** ** Listing the accesses changes nothing *)

Section Mirror.
Context {St S : Type} (proj : St -> S).

Lemma mr_ret {A} (a : A) : mirrors proj (ret a) (ret a).
Proof. intros s. reflexivity. Qed.

Lemma mr_of_res {A} (r : Res A) : mirrors proj (of_res r) (of_res r).
Proof. intros s. reflexivity. Qed.

Lemma mr_bind {A B} (mt : SE St A) (m : SE S A) (kt : A -> SE St B) (k : A -> SE S B) :
  mirrors proj mt m -> (forall a, mirrors proj (kt a) (k a)) ->
  mirrors proj (bind mt kt) (bind m k).
Proof.
  intros Hm Hk s. unfold bind. specialize (Hm s).
  destruct (mt s) as [[a|e] s1]; simpl in Hm; rewrite <- Hm; [apply Hk | reflexivity].
Qed.

Lemma mr_try_except {A} (bt : SE St A) (b : SE S A)
    (ht : Exn -> SE St A) (h : Exn -> SE S A) :
  mirrors proj bt b -> (forall e, mirrors proj (ht e) (h e)) ->
  mirrors proj (try_except bt ht) (try_except b h).
Proof.
  intros Hb Hh s. unfold try_except. specialize (Hb s).
  destruct (bt s) as [[a|e] s1]; simpl in Hb; rewrite <- Hb; [reflexivity | apply Hh].
Qed.

Lemma mr_for_each {A} (xs : list A) (bt : A -> SE St unit) (b : A -> SE S unit) :
  (forall x, mirrors proj (bt x) (b x)) ->
  mirrors proj (for_each xs bt) (for_each xs b).
Proof.
  intros Hb. induction xs as [|x xs IH]; simpl.
  - apply mr_ret.
  - apply mr_bind; [apply Hb | intros _; exact IH].
Qed.

End Mirror.

Section Erasure.
Variable Sf0 : Surface.

Local Abbreviation T := (traced Sf0).
Local Abbreviation mw := (mirrors (fst : @World T -> @World Sf0)).
Local Abbreviation ms := (mirrors (erase (Sf := Sf0))).

Lemma mw_getattr (o : Value) (n : string) :
  mw (@py_getattr T o n) (@py_getattr Sf0 o n).
Proof. intros [w t]. cbn. now destruct (@py_getattr Sf0 o n w). Qed.

Lemma mw_call (o : Value) (m : string) (args : list Value) :
  mw (@py_call T o m args) (@py_call Sf0 o m args).
Proof. intros [w t]. cbn. now destruct (@py_call Sf0 o m args w). Qed.

Lemma mw_dir (o : Value) : mw (@py_dir T o) (@py_dir Sf0 o).
Proof. intros [w t]. cbn. now destruct (@py_dir Sf0 o w). Qed.

Lemma ms_remote {A} (rt : SE (@World T) A) (r : SE (@World Sf0) A) :
  mw rt r -> ms (remote (Sf := T) rt) (remote (Sf := Sf0) r).
Proof.
  intros Hr s. unfold remote, erase. specialize (Hr (world s)).
  destruct (rt (world s)) as [a w1]. cbn in *. now rewrite <- Hr.
Qed.

Lemma ms_append (r : CheckResult) : ms (append (Sf := T) r) (append (Sf := Sf0) r).
Proof. intros s. reflexivity. Qed.

Lemma ms_print (line : string) : ms (print (Sf := T) line) (print (Sf := Sf0) line).
Proof. intros s. reflexivity. Qed.

Lemma ms_safe_read (name : string) (rt : SE (@World T) Value)
    (r : SE (@World Sf0) Value) :
  mw rt r -> ms (safe_read (Sf := T) name rt) (safe_read (Sf := Sf0) name r).
Proof.
  intros Hr. unfold safe_read. apply mr_try_except.
  - apply mr_bind; [now apply ms_remote | intros v].
    apply mr_bind; [apply ms_append | intros _; apply mr_ret].
  - intros e. apply mr_bind; [apply ms_append | intros _; apply mr_ret].
Qed.

Lemma ms_safe_attr (owner_name : string) (obj : Value) (attr : string)
    (aliases : option (list string)) :
  ms (safe_attr (Sf := T) owner_name obj attr aliases)
       (safe_attr (Sf := Sf0) owner_name obj attr aliases).
Proof.
  unfold safe_attr. apply mr_bind.
  - apply mr_try_except.
    + apply mr_bind; [apply ms_remote, mw_dir | intros ds; apply mr_ret].
    + intros e. apply mr_bind; [apply ms_append | intros _; apply mr_ret].
  - intros [v|exposed]; [apply mr_ret|].
    induction ([attr] ++ default [] aliases) as [|n names IH]; simpl.
    + apply mr_bind; [apply ms_append | intros _; apply mr_ret].
    + destruct (bool_decide (n ∈ exposed)); [apply ms_safe_read, mw_getattr | exact IH].
Qed.

Lemma ms_probe_basic_service (conn : Value) :
  ms (probe_basic_service (Sf := T) conn) (probe_basic_service (Sf := Sf0) conn).
Proof.
  unfold probe_basic_service.
  apply mr_bind; [|intros _].
  { apply ms_safe_read. unfold read_version.
    apply mr_bind; [apply mw_getattr | intros krpc].
    apply mr_bind; [apply mw_call | intros st; apply mw_getattr]. }
  apply mr_bind; [apply ms_safe_read, mw_getattr | intros mj].
  destruct (is_None mj); [apply mr_ret|].
  apply mr_bind; [apply ms_safe_read, mw_getattr | intros ready].
  apply mr_bind; [|intros _; apply mr_ret].
  destruct (is_False ready); [apply ms_append | apply mr_ret].
Qed.

Lemma ms_probe_modules (mj : Value) :
  ms (probe_modules (Sf := T) mj) (probe_modules (Sf := Sf0) mj).
Proof.
  unfold probe_modules, probe_modules_of. apply mr_for_each.
  intros [module_name props]. unfold probe_module.
  apply mr_bind; [apply ms_safe_read, mw_getattr | intros module].
  destruct (is_None module); [apply mr_ret|].
  apply mr_for_each. intros prop.
  apply mr_bind; [apply ms_safe_attr | intros _; apply mr_ret].
Qed.

Lemma ms_probe_ascent_compat (mj : Value) :
  ms (probe_ascent_compat (Sf := T) mj) (probe_ascent_compat (Sf := Sf0) mj).
Proof.
  unfold probe_ascent_compat.
  apply mr_bind; [apply ms_safe_read, mw_getattr | intros ascent].
  destruct (is_None ascent); [apply mr_ret|].
  apply mr_for_each. intros [[p m] a]. unfold probe_check.
  repeat (apply mr_bind; [apply ms_safe_read, mw_call | intros _]). apply mr_ret.
Qed.

Lemma ms_clear_nodes (conn : Value) :
  ms (clear_nodes (Sf := T) conn) (clear_nodes (Sf := Sf0) conn).
Proof.
  unfold clear_nodes.
  apply mr_bind; [|intros vessel].
  { apply ms_remote. apply mr_bind; [apply mw_getattr | intros; apply mw_getattr]. }
  apply mr_bind; [|intros nodes].
  { apply ms_remote. apply mr_bind; [apply mw_getattr | intros; apply mw_getattr]. }
  apply mr_bind; [apply mr_of_res | intros l].
  apply mr_bind; [|intros removed; apply ms_append].
  generalize 0. induction l as [|node l IH]; intros k; simpl.
  - apply mr_ret.
  - apply mr_bind; [apply ms_remote, mw_call | intros _; apply IH].
Qed.

Lemma ms_probe_operations (conn mj : Value) (make_nodes : bool) :
  ms (probe_operations (Sf := T) conn mj make_nodes)
       (probe_operations (Sf := Sf0) conn mj make_nodes).
Proof.
  unfold probe_operations.
  apply mr_bind; [apply ms_safe_read, mw_getattr | intros planner].
  destruct (is_None planner); [apply mr_ret|].
  apply mr_for_each. intros op_name. unfold probe_operation.
  apply mr_bind; [apply ms_safe_read, mw_getattr | intros op].
  destruct (is_None op); [apply mr_ret|].
  apply mr_bind; [apply ms_safe_read, mw_getattr | intros _].
  apply mr_bind; [apply ms_safe_attr | intros ts].
  apply mr_bind.
  - destruct (negb (is_None ts)); [|apply mr_ret].
    apply mr_bind; [apply ms_safe_attr | intros _].
    apply mr_bind; [apply ms_safe_attr | intros _; apply mr_ret].
  - intros _. destruct (negb make_nodes); [apply mr_ret|].
    unfold probe_make_nodes. apply mr_try_except.
    + apply mr_bind; [apply ms_remote, mw_call | intros nodes].
      apply mr_bind; [apply mr_of_res | intros count].
      apply mr_bind; [apply ms_append | intros _; apply ms_clear_nodes].
    + intros ex. unfold make_nodes_handler.
      destruct (has_crash_marker (str ex));
        [|destruct (is_expected_operation_error (str ex))]; apply ms_append.
Qed.

Lemma ms_probing (conn : Value) (make_nodes : bool) :
  ms (probing (Sf := T) conn make_nodes) (probing (Sf := Sf0) conn make_nodes).
Proof.
  unfold probing. apply mr_bind; [apply ms_probe_basic_service | intros mj].
  destruct (negb (is_None mj)); [|apply mr_ret].
  apply mr_bind; [apply ms_probe_modules | intros _].
  apply mr_bind; [apply ms_probe_ascent_compat | intros _].
  apply ms_probe_operations.
Qed.

Lemma ms_summarize (rs : list CheckResult) :
  ms (summarize (Sf := T) rs) (summarize (Sf := Sf0) rs).
Proof.
  unfold summarize.
  apply mr_bind; [|intros _].
  { apply mr_for_each. intros r. apply ms_print. }
  apply mr_bind; [apply ms_print | intros _].
  apply mr_bind; [apply ms_print | intros _; apply mr_ret].
Qed.

Lemma ms_main_body (args : Args) :
  ms (main_body (Sf := T) args) (main_body (Sf := Sf0) args).
Proof.
  unfold main_body. apply mr_bind.
  - apply mr_try_except.
    + apply mr_bind; [|intros conn; apply mr_ret].
      apply ms_remote. intros [w t]. cbn.
      now destruct (@krpc_connect Sf0 (arg_name args) (arg_address args)
                      (arg_rpc_port args) (arg_stream_port args) w).
    + intros ex. apply mr_bind; [apply ms_print | intros _; apply mr_ret].
  - intros [code|conn]; [apply mr_ret|]. unfold run_probes.
    apply mr_bind.
    + apply mr_try_except.
      * apply mr_bind; [apply ms_probing | intros _; apply mr_ret].
      * intros _. apply mr_bind; [apply ms_print | intros _; apply mr_ret].
    + intros r. apply mr_bind; [intros s; reflexivity | intros _].
      destruct r as [code|]; [apply mr_ret|].
      apply mr_bind; [intros s; reflexivity | intros rs; apply ms_summarize].
Qed.


End Erasure.

(** ** The probe of one operation *)

Section OperationWalk.
Context `{Sf : Surface}.

Lemma selector_member_name (op_name member : string) :
  ("op." +:+ op_name +:+ ".time_selector") +:+ "." +:+ member =
  "op." +:+ op_name +:+ ".time_selector." +:+ member.
Proof.
  change (String "o" (String "p" (String "."
            ((op_name +:+ ".time_selector") +:+ "." +:+ member))) =
          String "o" (String "p" (String "."
            (op_name +:+ ".time_selector" +:+ "." +:+ member)))).
  now rewrite string_app_assoc.
Qed.

Lemma operation_member_name (op_name member : string) :
  ("op." +:+ op_name) +:+ "." +:+ member = "op." +:+ op_name +:+ "." +:+ member.
Proof. reflexivity. Qed.

Lemma probe_operation_named (conn planner : Value) (make_nodes : bool) (op_name : string) :
  appends (fun r => In (name r) (operation_names op_name))
    (probe_operation conn planner make_nodes op_name).
Proof.
  unfold probe_operation.
  apply ap_bind; [|intros op].
  { apply ap_safe_read. intros st d _. simpl. auto. }
  destruct (is_None op); [apply ap_ret|].
  apply ap_bind; [|intros _].
  { apply ap_safe_read. intros st d _. simpl. auto. }
  apply ap_bind; [|intros ts].
  { apply ap_safe_attr.
    - intros n st d [<-|[]] _. cbn [name]. rewrite operation_member_name.
      simpl. auto.
    - cbn [name]. rewrite operation_member_name. simpl. auto. }
  apply ap_bind.
  - destruct (negb (is_None ts)); [|apply ap_ret].
    apply ap_bind; [|intros _; apply ap_bind; [|intros _; apply ap_ret]].
    + apply ap_safe_attr.
      * intros n st d [<-|[<-|[]]] _; cbn [name]; rewrite selector_member_name;
          simpl; auto 10.
      * cbn [name]. rewrite selector_member_name. simpl. auto 10.
    + apply ap_safe_attr.
      * intros n st d [<-|[]] _. cbn [name]. rewrite selector_member_name.
        simpl. auto 10.
      * cbn [name]. rewrite selector_member_name. simpl. auto 10.
  - intros _. destruct (negb make_nodes); [apply ap_ret|].
    unfold probe_make_nodes. apply ap_try_except.
    + apply ap_bind; [apply ap_remote | intros nodes].
      apply ap_bind; [apply ap_of_res | intros count].
      apply ap_bind; [apply ap_append; simpl; auto 10 | intros _].
      unfold clear_nodes.
      apply ap_bind; [apply ap_remote | intros vessel].
      apply ap_bind; [apply ap_remote | intros ns].
      apply ap_bind; [apply ap_of_res | intros l].
      apply ap_bind.
      * generalize 0. induction l as [|node l IH]; intros k; simpl.
        { apply ap_ret. }
        { apply ap_bind; [apply ap_remote | intros _; apply IH]. }
      * intros removed. apply ap_append. simpl. auto 10.
    + intros ex. unfold make_nodes_handler.
      destruct (has_crash_marker (str ex));
        [|destruct (is_expected_operation_error (str ex))];
        apply ap_append; simpl; auto 10.
Qed.

Lemma probe_operation_count (conn planner : Value) (op_name : string) (s : State) :
  exists w new,
    probe_operation conn planner false op_name s =
      (Ret tt, mkState w (results s ++ new) (stdout s)) /\
    (length new = 1 \/ length new = 3 \/ length new = 5).
Proof.
  unfold probe_operation. unfold bind at 1.
  destruct (safe_read_appends_one ("op." +:+ op_name) (py_getattr planner op_name) s)
    as (op & st1 & d1 & ->).
  destruct (is_None op).
  { eexists _, [_]. split; [reflexivity | auto]. }
  unfold bind at 1.
  match goal with
  | |- context [safe_read ?n ?f ?s0] =>
      destruct (safe_read_appends_one n f s0) as (v2 & st2 & d2 & ->)
  end.
  unfold bind at 1.
  match goal with
  | |- context [safe_attr ?o ?ob ?a ?al ?s0] =>
      destruct (safe_attr_appends_one o ob a al s0) as (ts & w3 & r3 & ->)
  end.
  unfold bind at 1. destruct (negb (is_None ts)).
  - unfold bind at 1.
    match goal with
    | |- context [safe_attr ?o ?ob ?a ?al ?s0] =>
        destruct (safe_attr_appends_one o ob a al s0) as (v4 & w4 & r4 & ->)
    end.
    unfold bind at 1.
    match goal with
    | |- context [safe_attr ?o ?ob ?a ?al ?s0] =>
        destruct (safe_attr_appends_one o ob a al s0) as (v5 & w5 & r5 & ->)
    end.
    eexists _, [_; _; _; _; _]. split; [|auto].
    unfold ret, recorded. cbn. now rewrite <- !app_assoc.
  - eexists _, [_; _; _]. split; [|auto].
    unfold ret, recorded. cbn. now rewrite <- !app_assoc.
Qed.

(** X17: the probe of one operation never raises and records only under
    the names of that operation (and of the cleanup); with node generation
    off it appends one, three or five results: the fetch alone, the fetch
    with the error message and the time selector, or those with the two
    members of the time selector. *)
Theorem operation_probe_results (conn planner : Value) (make_nodes : bool)
    (op_name : string) (s : State) :
  exists new,
    fst (probe_operation conn planner make_nodes op_name s) = Ret tt /\
    results (snd (probe_operation conn planner make_nodes op_name s)) = results s ++ new /\
    Forall (fun r => In (name r) (operation_names op_name)) new /\
    (make_nodes = false ->
     length new = 1 \/ length new = 3 \/ length new = 5).
Proof.
  destruct (probe_operation_named conn planner make_nodes op_name s) as (new & Hres & Hn).
  exists new.
  destruct (probe_operation_contained conn planner make_nodes op_name s) as [[] Hret].
  split; [exact Hret|]. split; [exact Hres|]. split; [exact Hn|].
  intros ->. destruct (probe_operation_count conn planner op_name s) as (w & n' & E & Hc).
  rewrite E in Hres. cbn [snd results] in Hres. apply app_inv_head in Hres. now subst.
Qed.

End OperationWalk.
